(** * Paths.ts: SVG paths as sequences of Bezier curves

    A shallow embedding of [src/Paths.ts] (react-native-redash) and the
    properties of its serializer, of the adapter behind [parse], of the path
    interpolator and of [getYForX].

    JavaScript numbers are IEEE doubles.  The development is parametric in the
    type [number] and in the operations the source applies to it (class
    [Numbers]): the comparisons [>], [>=], [<=] and the conversion to text
    made by a template literal.  What the file imports is a second class,
    [Imports]: [interpolate] and [Extrapolate] of react-native-reanimated,
    [cubicBezierYForX] of ./Math; the three SVG parsing packages are a third,
    [SVGPackages].  A model over the rationals instantiates the first two, and
    the functions are run in it on concrete paths. *)

From Stdlib Require Import List String Ascii Bool Arith ZArith Lia.
From Stdlib Require Import QArith Qcanon DecimalString.
Import ListNotations.

Set Implicit Arguments.

Close Scope Qc_scope.
Close Scope Q_scope.
Local Open Scope string_scope.
Local Open Scope list_scope.

(** ** Exceptions and the error monad *)

(** What a call can throw.  [Error msg] is [throw new Error(msg)] of the
    source.  The other two are TypeErrors raised by the engine itself, whose
    text depends on the engine: reading a property of [undefined], and
    [reduce] of an empty array with no initial value. *)
Inductive exn : Type :=
| Error (msg : string)
| TypeError_undefined
| TypeError_reduce_empty.

Inductive result (A : Type) : Type :=
| Ok (a : A)
| Throw (e : exn).

Arguments Ok {A} a.
Arguments Throw {A} e.

Definition bind {A B : Type} (c : result A) (k : A -> result B) : result B :=
  match c with
  | Ok a => k a
  | Throw e => Throw e
  end.

Declare Scope js_scope.
Delimit Scope js_scope with js.
Notation "x <- c ;; k" := (bind c (fun x => k))
  (at level 61, c at next level, right associativity) : js_scope.
Local Open Scope js_scope.

(** ** Arrays *)

(** [a.map((v, index) => f)] with a callback that can throw: elements are
    visited from left to right and the first exception aborts the call. *)
Fixpoint array_map_from {A B : Type} (f : A -> nat -> result B)
    (index : nat) (a : list A) : result (list B) :=
  match a with
  | [] => Ok []
  | v :: a' =>
      b <- f v index ;;
      bs <- array_map_from f (S index) a' ;;
      Ok (b :: bs)
  end.

Definition array_map {A B : Type} (f : A -> nat -> result B) (a : list A)
  : result (list B) :=
  array_map_from f 0 a.

(** [a.reduce((acc, c) => f(acc, c))] with no initial value: the first element
    seeds the accumulator, and an empty array is a TypeError. *)
Definition array_reduce {A : Type} (f : A -> A -> A) (a : list A) : result A :=
  match a with
  | [] => Throw TypeError_reduce_empty
  | v :: a' => Ok (fold_left f a' v)
  end.

(** [a[i]] is [nth_error a i], with [None] for [undefined].  [a[index - 1]]
    is below the array when [index] is 0. *)
Definition array_get_pred {A : Type} (a : list A) (index : nat) : option A :=
  match index with
  | O => None
  | S i => nth_error a i
  end.

(** [v ?? d], and a parameter [v] with the default [d]. *)
Definition nullish {A : Type} (v : option A) (d : A) : A :=
  match v with
  | Some a => a
  | None => d
  end.

(** ** SVG path command letters *)

(** The letters of the SVG path grammar, in both cases. *)
Definition is_command_letter (a : ascii) : bool :=
  existsb (Ascii.eqb a)
    (list_ascii_of_string "MmLlHhVvCcSsQqTtAaZz").

Definition command_letters (s : string) : list ascii :=
  filter is_command_letter (list_ascii_of_string s).

(** ** Numbers *)

Class Numbers : Type := {
  number : Type;
  (** the literals [0] and [1] *)
  zero : number;
  one : number;
  (** [a > b], [a >= b] and [a <= b] *)
  gt : number -> number -> bool;
  ge : number -> number -> bool;
  le : number -> number -> bool;
  (** the text a template literal puts for a number *)
  show : number -> string
}.

Section DataModel.

Context {N : Numbers}.

Inductive SVGCommand : Type := MOVE | CURVE | CLOSE.

Record Vector : Type := { x : number; y : number }.

(** The fields of [interface Curve].  The parameter [F] is the type of the
    field [from]: a [Vector] in the segments of a [Path], and [unit] in the
    object literals of [interpolatePath], which have no [from] property at
    all (the cast [as Curve] hides that from the type checker). *)
Record Bezier (F : Type) : Type := {
  from : F;
  to : Vector;
  c1 : Vector;
  c2 : Vector
}.

(** [Segment = Close | Curve | Move]; a Move extends the Vector it carries. *)
Inductive Segment (F : Type) : Type :=
| Move (v : Vector)
| Curve (c : Bezier F)
| Close.

Definition Path : Type := list (Segment Vector).

(** The normalized commands [["M", x, y]], [["C", x1, y1, x2, y2, x, y]] and
    [["Z"]]. *)
Inductive SVGNormalizedCommand : Type :=
| SVGMoveCommand (mx my : number)
| SVGCurveCommand (x1 y1 x2 y2 cx cy : number)
| SVGCloseCommand.

(** What the file imports for its numeric work. *)
Class Imports : Type := {
  (** [Animated.Extrapolate] and its member [CLAMP] *)
  Extrapolate : Type;
  CLAMP : Extrapolate;
  (** [interpolate(value, inputRange, outputRange, extrapolate)] *)
  interpolate : number -> list number -> list number -> Extrapolate -> number;
  (** [cubicBezierYForX(x, a, b, c, d)] *)
  cubicBezierYForX : number -> Vector -> Vector -> Vector -> Vector -> number
}.

(** The packages parse-svg-path, abs-svg-path and normalize-svg-path. *)
Class SVGPackages : Type := {
  RawCommands : Type;
  parseSVG : string -> RawCommands;
  absSVG : RawCommands -> RawCommands;
  normalizeSVG : RawCommands -> list SVGNormalizedCommand
}.

End DataModel.

Arguments Move {N F} v.
Arguments Curve {N F} c.
Arguments Close {N F}.
Arguments Build_Bezier {N F} from to c1 c2.
Arguments from {N F} b.
Arguments to {N F} b.
Arguments c1 {N F} b.
Arguments c2 {N F} b.
Arguments Imports N : clear implicits.
Arguments SVGPackages N : clear implicits.

Section Functions.

Context {N : Numbers} {I : Imports N} {P : SVGPackages N}.

Definition type {F : Type} (command : Segment F) : SVGCommand :=
  match command with
  | Move _ => MOVE
  | Curve _ => CURVE
  | Close => CLOSE
  end.

(** The type guards.  They read [command.type]; where the source applies one
    to an array element that may be missing, the functions below match on the
    [option] and throw for [None]. *)
Definition isMove {F : Type} (command : Segment F) : bool :=
  match type command with MOVE => true | _ => false end.

Definition isCurve {F : Type} (command : Segment F) : bool :=
  match type command with CURVE => true | _ => false end.

Definition isClose {F : Type} (command : Segment F) : bool :=
  match type command with CLOSE => true | _ => false end.

(** The builders [move], [curve] and [close]. *)
Definition move (mx my : number) : Segment Vector :=
  Move {| x := mx; y := my |}.

Definition curve (c : Bezier Vector) : Segment Vector :=
  Curve {| c1 := c1 c; c2 := c2 c; to := to c; from := from c |}.

Definition close : Segment Vector := Close.

(** ** Serializer *)

Definition serializeMove (c : Vector) : string :=
  "M" ++ show (x c) ++ "," ++ show (y c) ++ " ".

Definition serializeClose : string := "Z".

Definition serializeCurve {F : Type} (c : Bezier F) : string :=
  "C" ++ show (x (c1 c)) ++ "," ++ show (y (c1 c)) ++ " "
      ++ show (x (c2 c)) ++ "," ++ show (y (c2 c)) ++ " "
      ++ show (x (to c)) ++ "," ++ show (y (to c)) ++ " ".

(** The callback of the [map] in [serialize].  The type guards [isMove],
    [isCurve] and [isClose] are tried in that order, each narrowing the
    segment to the fields its serializer reads; [exhaustiveCheck], whose
    argument has type [never], has no case left to serve. *)
Definition serializeSegment {F : Type} (segment : Segment F) : string :=
  match segment with
  | Move c => serializeMove c
  | Curve c => serializeCurve c
  | Close => serializeClose
  end.

Definition serialize {F : Type} (path : list (Segment F)) : result string :=
  array_reduce (fun acc c => (acc ++ c)%string) (map serializeSegment path).

(** ** The adapter of [parse] *)

(** [segment[0]], the letter of a command. *)
Definition letter (segment : SVGNormalizedCommand) : string :=
  match segment with
  | SVGMoveCommand _ _ => "M"
  | SVGCurveCommand _ _ _ _ _ _ => "C"
  | SVGCloseCommand => "Z"
  end.

(** [segment[k]] for [k >= 1], [None] past the end of the tuple. *)
Definition item (segment : SVGNormalizedCommand) (k : nat) : option number :=
  array_get_pred
    match segment with
    | SVGMoveCommand mx my => [mx; my]
    | SVGCurveCommand x1 y1 x2 y2 cx cy => [x1; y1; x2; y2; cx; cy]
    | SVGCloseCommand => []
    end k.

(** The callback of the [map] in [parse].  In the Curve branch [prev] is
    [segments[index - 1]], and [prev[0]] is read whatever [prev] is. *)
Definition parseSegment (segments : list SVGNormalizedCommand)
    (segment : SVGNormalizedCommand) (index : nat) : result (Segment Vector) :=
  match segment with
  | SVGMoveCommand mx my => Ok (move mx my)
  | SVGCloseCommand => Ok close
  | SVGCurveCommand x1 y1 x2 y2 cx cy =>
      match array_get_pred segments index with
      | None => Throw TypeError_undefined
      | Some prev =>
          Ok (curve {|
            c1 := {| x := x1; y := y1 |};
            c2 := {| x := x2; y := y2 |};
            to := {| x := cx; y := cy |};
            from := {|
              x := nullish (if letter prev =? "M" then item prev 1
                            else item prev 5) zero;
              y := nullish (if letter prev =? "M" then item prev 2
                            else item prev 6) zero |} |})
      end
  end.

Definition parseSegments (segments : list SVGNormalizedCommand) : result Path :=
  array_map (parseSegment segments) segments.

Definition parse (d : string) : result Path :=
  parseSegments (normalizeSVG (absSVG (parseSVG d))).

(** ** Interpolation *)

Definition asymmetrical : exn := Error "Paths to interpolate are not symetrical".

(** [p[index]] seen through a type guard: the guard reads [s.type], which is
    a TypeError when [p] has no element at [index]. *)
Definition pointAt (index : nat) (p : Path) (_ : nat) : result Vector :=
  match nth_error p index with
  | None => Throw TypeError_undefined
  | Some (Move s) => Ok {| x := x s; y := y s |}
  | Some _ => Throw asymmetrical
  end.

Definition curveAt (index : nat) (p : Path) (_ : nat) : result (Bezier unit) :=
  match nth_error p index with
  | None => Throw TypeError_undefined
  | Some (Curve s) => Ok {| from := tt; to := to s; c1 := c1 s; c2 := c2 s |}
  | Some _ => Throw asymmetrical
  end.

(** The callback of [outputRange[0].map]. *)
Definition interpolateSegment (value : number) (inputRange : list number)
    (outputRange : list Path) (extrapolate : Extrapolate)
    (segment : Segment Vector) (index : nat) : result (Segment unit) :=
  match segment with
  | Move _ =>
      points <- array_map (pointAt index) outputRange ;;
      Ok (Move {|
        x := interpolate value inputRange (map x points) extrapolate;
        y := interpolate value inputRange (map y points) extrapolate |})
  | Curve _ =>
      curves <- array_map (curveAt index) outputRange ;;
      Ok (Curve {|
        from := tt;
        to := {|
          x := interpolate value inputRange
                 (map (fun c => x (to c)) curves) extrapolate;
          y := interpolate value inputRange
                 (map (fun c => y (to c)) curves) extrapolate |};
        c1 := {|
          x := interpolate value inputRange
                 (map (fun c => x (c1 c)) curves) extrapolate;
          y := interpolate value inputRange
                 (map (fun c => y (c1 c)) curves) extrapolate |};
        c2 := {|
          x := interpolate value inputRange
                 (map (fun c => x (c2 c)) curves) extrapolate;
          y := interpolate value inputRange
                 (map (fun c => y (c2 c)) curves) extrapolate |} |})
  | Close => Ok Close
  end.

(** The constant [path] of [interpolatePath].  [outputRange[0].map] is a
    TypeError when [outputRange] is empty. *)
Definition interpolatedPath (value : number) (inputRange : list number)
    (outputRange : list Path) (extrapolate : Extrapolate)
  : result (list (Segment unit)) :=
  match nth_error outputRange 0 with
  | None => Throw TypeError_undefined
  | Some first =>
      array_map
        (interpolateSegment value inputRange outputRange extrapolate) first
  end.

(** An omitted [extrapolate] is [None] and takes the default [CLAMP]. *)
Definition interpolatePath (value : number) (inputRange : list number)
    (outputRange : list Path) (extrapolate : option Extrapolate)
  : result string :=
  path <- interpolatedPath value inputRange outputRange
            (nullish extrapolate CLAMP) ;;
  serialize path.

Definition mixPath (value : number) (p1 p2 : Path)
    (extrapolate : option Extrapolate) : result string :=
  interpolatePath value [zero; one] [p1; p2]
    (Some (nullish extrapolate CLAMP)).

(** ** y for x *)

(** The callback of the [filter] in [getYForX]. *)
Definition brackets (x0 : number) (c : Segment Vector) : bool :=
  match c with
  | Curve c =>
      if gt (x (from c)) (x (to c))
      then ge x0 (x (to c)) && le x0 (x (from c))
      else ge x0 (x (from c)) && le x0 (x (to c))
  | _ => false
  end.

(** [isCurve(p[0])] reads [p[0].type], a TypeError when the filter kept
    nothing. *)
Definition getYForX (path : Path) (x0 : number) : result number :=
  let p := filter (brackets x0) path in
  match nth_error p 0 with
  | None => Throw TypeError_undefined
  | Some (Curve c) => Ok (cubicBezierYForX x0 (from c) (c1 c) (c2 c) (to c))
  | Some _ => Ok zero
  end.

End Functions.

(** ** A model over the rationals

    Numbers are canonical rationals, so that equal numbers are equal terms.
    The text of a number is its decimal expansion, which is what a template
    literal prints for the doubles that have a short one. *)

Module Rational.

Definition digit (r : Z) : ascii := ascii_of_nat (48 + Z.to_nat r).

(** The digits of [r / d] after the point, for [0 <= r < d]. *)
Fixpoint fraction (fuel : nat) (r d : Z) : string :=
  match fuel with
  | O => ""
  | S fuel' =>
      if (r =? 0)%Z then ""
      else String (digit (10 * r / d)) (fraction fuel' ((10 * r) mod d) d)
  end.

Definition show_Q (q : Q) : string :=
  let d := Zpos (Qden q) in
  let a := Z.abs (Qnum q) in
  ((if (Qnum q <? 0)%Z then "-" else "")
   ++ NilZero.string_of_uint (N.to_uint (Z.to_N (a / d)))
   ++ (if (a mod d =? 0)%Z then "" else "." ++ fraction 17 (a mod d) d))%string.

#[local] Instance numbers : Numbers := {|
  number := Qc;
  zero := 0%Qc;
  one := 1%Qc;
  gt := fun a b => match (a ?= b)%Qc with Gt => true | _ => false end;
  ge := fun a b => match (a ?= b)%Qc with Lt => false | _ => true end;
  le := fun a b => match (a ?= b)%Qc with Gt => false | _ => true end;
  show := fun a => show_Q (this a)
|}.

(** The one policy of the specification. *)
Inductive Extrapolation : Type := Clamp.

Definition lerp (value l r ll rr : Qc) : Qc :=
  (ll + (value - l) / (r - l) * (rr - ll))%Qc.

(** The pair of breakpoints around [value], and the line through the
    corresponding outputs. *)
Fixpoint piecewise (value : Qc) (inputRange outputRange : list Qc) : Qc :=
  match inputRange, outputRange with
  | l :: (r :: inputRange') as ri, ll :: (rr :: _) as ro =>
      match inputRange' with
      | [] => lerp value l r ll rr
      | _ => if le value r then lerp value l r ll rr else piecewise value ri ro
      end
  | _, ll :: _ => ll
  | _, [] => 0%Qc
  end.

(** Modelled from the spec: the scalar interpolation of react-native-reanimated,
    which is not part of the repository.  The value is bracketed between two
    breakpoints of the ascending [inputRange] and the two outputs are
    interpolated linearly; under the clamp policy a value outside the bounds
    of [inputRange] is pinned to the nearest boundary output. *)
Definition interpolate (value : Qc) (inputRange outputRange : list Qc)
    (extrapolate : Extrapolation) : Qc :=
  match inputRange with
  | [] => piecewise value inputRange outputRange
  | l :: _ =>
      if le value l then hd 0%Qc outputRange
      else if ge value (last inputRange l) then last outputRange 0%Qc
      else piecewise value inputRange outputRange
  end.

(** The cubic Bezier polynomial at [t]. *)
Definition cubicBezier (t p0 p1 p2 p3 : Qc) : Qc :=
  ((1 - t) * (1 - t) * (1 - t) * p0
   + (1 + 1 + 1) * (1 - t) * (1 - t) * t * p1
   + (1 + 1 + 1) * (1 - t) * t * t * p2
   + t * t * t * p3)%Qc.

(** A bounded bisection of [0, 1] for the [t] with [xs t = target], where
    [xs] is monotonic. *)
Fixpoint solve (fuel : nat) (xs : Qc -> Qc) (rising : bool) (target lo hi : Qc)
  : Qc :=
  let mid := ((lo + hi) / (1 + 1))%Qc in
  match fuel with
  | O => mid
  | S fuel' =>
      match (xs mid ?= target)%Qc with
      | Eq => mid
      | Lt => if rising then solve fuel' xs rising target mid hi
              else solve fuel' xs rising target lo mid
      | Gt => if rising then solve fuel' xs rising target lo mid
              else solve fuel' xs rising target mid hi
      end
  end.

(** Modelled from the spec: [cubicBezierYForX] of ./Math, which is missing
    from the sources.  An [x] at [from.x] or at [to.x] returns [from.y] or
    [to.y] at once; otherwise the cubic [x(t) = x] is solved for [t] in
    [0, 1] by a bounded iteration and [y(t)] is evaluated at that [t]. *)
Definition cubicBezierYForX (x0 : Qc) (a b c d : Vector) : Qc :=
  if Qc_eq_dec x0 (x a) then y a
  else if Qc_eq_dec x0 (x d) then y d
  else
    let t := solve 24 (fun t => cubicBezier t (x a) (x b) (x c) (x d))
               (le (x a) (x d)) x0 0%Qc 1%Qc in
    cubicBezier t (y a) (y b) (y c) (y d).

(** Modelled from the spec: the same [cubicBezierYForX] of ./Math with the
    solver of the cubic left open, which tells the returns at the boundary
    from the answers of the solver. *)
Definition cubicBezierYForXWith (solver : (Qc -> Qc) -> bool -> Qc -> Qc)
    (x0 : Qc) (a b c d : Vector) : Qc :=
  if Qc_eq_dec x0 (x a) then y a
  else if Qc_eq_dec x0 (x d) then y d
  else
    let t := solver (fun t => cubicBezier t (x a) (x b) (x c) (x d))
               (le (x a) (x d)) x0 in
    cubicBezier t (y a) (y b) (y c) (y d).

#[local] Instance imports : Imports numbers :=
  @Build_Imports numbers Extrapolation Clamp interpolate cubicBezierYForX.

End Rational.

(** Numbers and points of the model, from integers. *)
Definition num (n : Z) : @number Rational.numbers := Q2Qc (inject_Z n).
Definition half : @number Rational.numbers := Q2Qc (1 # 2).
Definition pt (a b : Z) : @Vector Rational.numbers :=
  {| x := num a; y := num b |}.

(** ** Vocabulary of the properties *)

Section Vocabulary.

Context {N : Numbers} {I : Imports N}.

(** A segment without its [from] field. *)
Definition eraseFrom {F : Type} (segment : Segment F) : Segment unit :=
  match segment with
  | Move v => Move v
  | Curve c => Curve {| from := tt; to := to c; c1 := c1 c; c2 := c2 c |}
  | Close => Close
  end.

(** Two segments that differ at most in the [from] field of a Curve. *)
Inductive same_up_to_from : Segment Vector -> Segment Vector -> Prop :=
| same_move : forall v, same_up_to_from (Move v) (Move v)
| same_curve : forall c c',
    to c = to c' -> c1 c = c1 c' -> c2 c = c2 c' ->
    same_up_to_from (Curve c) (Curve c')
| same_close : same_up_to_from Close Close.

(** The token of a segment, as the specification writes it. *)
Definition token {F : Type} (segment : Segment F) : string :=
  match segment with
  | Move v => "M" ++ show (x v) ++ "," ++ show (y v) ++ " "
  | Curve c =>
      "C" ++ show (x (c1 c)) ++ "," ++ show (y (c1 c)) ++ " "
          ++ show (x (c2 c)) ++ "," ++ show (y (c2 c)) ++ " "
          ++ show (x (to c)) ++ "," ++ show (y (to c)) ++ " "
  | Close => "Z"
  end.

(** The command letter of a kind of segment. *)
Definition command_letter (t : SVGCommand) : ascii :=
  match t with
  | MOVE => "M"%char
  | CURVE => "C"%char
  | CLOSE => "Z"%char
  end.

(** The numbers a segment puts in its token. *)
Definition coordinates {F : Type} (segment : Segment F) : list number :=
  match segment with
  | Move v => [x v; y v]
  | Curve c => [x (c1 c); y (c1 c); x (c2 c); y (c2 c); x (to c); y (to c)]
  | Close => []
  end.

(** A text with no command letter in it. *)
Definition plain (s : string) : bool :=
  forallb (fun a => negb (is_command_letter a)) (list_ascii_of_string s).

Definition plain_numbers {F : Type} (path : list (Segment F)) : bool :=
  forallb (fun n => plain (show n)) (flat_map coordinates path).

(** The kinds of the segments of a path, in order. *)
Definition shape {F : Type} (path : list (Segment F)) : list SVGCommand :=
  map type path.

(** Structurally identical paths: the same number of segments and the same
    kind at every index. *)
Definition symmetrical (outputRange : list Path) : Prop :=
  forall p q, In p outputRange -> In q outputRange -> shape p = shape q.

Definition origin : Vector := {| x := zero; y := zero |}.

(** The pen position a normalized command leaves behind, as [parse] reads
    it from the command before a curve. *)
Definition penAfter (prev : SVGNormalizedCommand) : Vector :=
  match prev with
  | SVGMoveCommand mx my => {| x := mx; y := my |}
  | SVGCurveCommand _ _ _ _ cx cy => {| x := cx; y := cy |}
  | SVGCloseCommand => origin
  end.

(** What [parse] makes of a command that has a command before it, or that
    is not a curve. *)
Definition adapted (segments : list SVGNormalizedCommand)
    (segment : SVGNormalizedCommand) (index : nat) : Segment Vector :=
  match segment with
  | SVGMoveCommand mx my => move mx my
  | SVGCloseCommand => close
  | SVGCurveCommand x1 y1 x2 y2 cx cy =>
      Curve {| from := match array_get_pred segments index with
                       | Some prev => penAfter prev
                       | None => origin
                       end;
               to := {| x := cx; y := cy |};
               c1 := {| x := x1; y := y1 |};
               c2 := {| x := x2; y := y2 |} |}
  end.

(** [Math.min] and [Math.max] on numbers that [<=] orders. *)
Definition min_number (a b : number) : number := if le a b then a else b.
Definition max_number (a b : number) : number := if le a b then b else a.

(** The closed interval between the x of the two ends of a curve. *)
Definition in_x_interval (x0 : number) (c : Bezier Vector) : bool :=
  le (min_number (x (from c)) (x (to c))) x0
  && le x0 (max_number (x (from c)) (x (to c))).

(** The contract of [interpolate] under the clamp policy, on one
    [inputRange]: the first and the last breakpoint give the first and the
    last output, and so does every value below the first or above the last. *)
Definition clamps (inputRange : list number) : Prop :=
  forall outputs, List.length outputs = List.length inputRange ->
    interpolate (hd zero inputRange) inputRange outputs CLAMP
      = hd zero outputs
    /\ interpolate (last inputRange zero) inputRange outputs CLAMP
      = last outputs zero
    /\ (forall value, gt (hd zero inputRange) value = true ->
          interpolate value inputRange outputs CLAMP = hd zero outputs)
    /\ (forall value, gt value (last inputRange zero) = true ->
          interpolate value inputRange outputs CLAMP = last outputs zero).

(** The point and the control points that [interpolatePath] gathers from a
    path at an index where the path has the expected kind of segment. *)
Definition pointOf (index : nat) (p : Path) : Vector :=
  match nth_error p index with
  | Some (Move s) => {| x := x s; y := y s |}
  | _ => origin
  end.

Definition controlOf (index : nat) (p : Path) : Bezier unit :=
  match nth_error p index with
  | Some (Curve s) => {| from := tt; to := to s; c1 := c1 s; c2 := c2 s |}
  | _ => {| from := tt; to := origin; c1 := origin; c2 := origin |}
  end.

(** The segment [interpolatePath] builds at an index, on symmetrical paths. *)
Definition blend (value : number) (inputRange : list number)
    (outputRange : list Path) (extrapolate : Extrapolate)
    (segment : Segment Vector) (index : nat) : Segment unit :=
  let mix (f : Path -> number) :=
    interpolate value inputRange (map f outputRange) extrapolate in
  match segment with
  | Move _ =>
      Move {| x := mix (fun p => x (pointOf index p));
              y := mix (fun p => y (pointOf index p)) |}
  | Curve _ =>
      Curve {|
        from := tt;
        to := {| x := mix (fun p => x (to (controlOf index p)));
                 y := mix (fun p => y (to (controlOf index p))) |};
        c1 := {| x := mix (fun p => x (c1 (controlOf index p)));
                 y := mix (fun p => y (c1 (controlOf index p))) |};
        c2 := {| x := mix (fun p => x (c2 (controlOf index p)));
                 y := mix (fun p => y (c2 (controlOf index p))) |} |}
  | Close => Close
  end.

(** The paths agree with [first] under its Moves and Curves: at every index
    where [first] has a segment that is not a Close, each path has a segment
    of the same kind. *)
Definition aligned (outputRange : list Path) (first : Path) : Prop :=
  forall index segment,
    nth_error first index = Some segment ->
    type segment <> CLOSE ->
    forall p, In p outputRange ->
      exists s, nth_error p index = Some s /\ type s = type segment.

(** The kind of segment and the text of a normalized command. *)
Definition kindOf (segment : SVGNormalizedCommand) : SVGCommand :=
  match segment with
  | SVGMoveCommand _ _ => MOVE
  | SVGCurveCommand _ _ _ _ _ _ => CURVE
  | SVGCloseCommand => CLOSE
  end.

Definition commandText (segment : SVGNormalizedCommand) : string :=
  match segment with
  | SVGMoveCommand mx my => "M" ++ show mx ++ "," ++ show my ++ " "
  | SVGCurveCommand x1 y1 x2 y2 cx cy =>
      "C" ++ show x1 ++ "," ++ show y1 ++ " "
          ++ show x2 ++ "," ++ show y2 ++ " "
          ++ show cx ++ "," ++ show cy ++ " "
  | SVGCloseCommand => "Z"
  end.

(** Where a segment of a parsed path leaves the pen for the curve after it. *)
Definition penOf (segment : Segment Vector) : Vector :=
  match segment with
  | Move v => v
  | Curve c => to c
  | Close => origin
  end.

(** A curve whose closed x interval contains the query. *)
Definition selects (x0 : number) (segment : Segment Vector) : bool :=
  match segment with
  | Curve c => in_x_interval x0 c
  | _ => false
  end.

(** The answer of [getYForX] on the segment its selection found. *)
Definition solveOn (x0 : number) (found : option (Segment Vector))
  : result number :=
  match found with
  | Some (Curve c) => Ok (cubicBezierYForX x0 (from c) (c1 c) (c2 c) (to c))
  | _ => Throw TypeError_undefined
  end.

End Vocabulary.

(** [map] with the index, from a starting index. *)
Fixpoint map_from {A B : Type} (g : A -> nat -> B) (index : nat) (a : list A)
  : list B :=
  match a with
  | [] => []
  | v :: a' => g v index :: map_from g (S index) a'
  end.

(** * Properties *)

(** ** Arrays and strings *)

Lemma array_map_from_pure {A B : Type} (f : A -> nat -> result B)
    (g : A -> nat -> B) (a : list A) :
  forall n,
    (forall i v, nth_error a i = Some v -> f v (n + i) = Ok (g v (n + i))) ->
    array_map_from f n a = Ok (map_from g n a).
Proof.
  induction a as [|v a IH]; intros n H; simpl; [reflexivity|].
  pose proof (H 0 v eq_refl) as H0. rewrite Nat.add_0_r in H0. rewrite H0.
  simpl. rewrite (IH (S n)); [reflexivity|].
  intros i w Hi. specialize (H (S i) w Hi).
  now rewrite Nat.add_succ_r in H.
Qed.

Lemma map_from_length {A B : Type} (g : A -> nat -> B) (a : list A) :
  forall n, List.length (map_from g n a) = List.length a.
Proof. induction a; intros n; simpl; [reflexivity|]. now rewrite IHa. Qed.

Lemma map_from_nth_error {A B : Type} (g : A -> nat -> B) (a : list A) :
  forall n i,
    nth_error (map_from g n a) i
    = option_map (fun v => g v (n + i)) (nth_error a i).
Proof.
  induction a as [|v a IH]; intros n [|i]; simpl; try reflexivity.
  - now rewrite Nat.add_0_r.
  - rewrite IH. now rewrite Nat.add_succ_r.
Qed.

Lemma map_from_const {A B : Type} (g : A -> B) (a : list A) :
  forall n, map_from (fun v _ => g v) n a = map g a.
Proof. induction a; intros n; simpl; [reflexivity|]. now rewrite IHa. Qed.

Lemma array_map_from_ext {A A' B : Type} (R : A -> A' -> Prop)
    (f : A -> nat -> result B) (f' : A' -> nat -> result B) a a' :
  Forall2 R a a' ->
  (forall v v' i, R v v' -> f v i = f' v' i) ->
  forall n, array_map_from f n a = array_map_from f' n a'.
Proof.
  intros HR Hf. induction HR as [|v v' a a' Hv _ IH]; intros n; simpl.
  - reflexivity.
  - rewrite (Hf v v' n Hv), IH. reflexivity.
Qed.

Lemma append_empty (s : string) : (s ++ "")%string = s.
Proof. induction s; simpl; [reflexivity|]. now rewrite IHs. Qed.

Lemma append_assoc (s t u : string) :
  ((s ++ t) ++ u)%string = (s ++ (t ++ u))%string.
Proof. induction s; simpl; [reflexivity|]. now rewrite IHs. Qed.

Lemma concat_cons (s : string) (l : list string) :
  String.concat "" (s :: l) = (s ++ String.concat "" l)%string.
Proof. destruct l; simpl; [now rewrite append_empty | reflexivity]. Qed.

Lemma fold_left_append (l : list string) :
  forall s,
    fold_left (fun acc c => (acc ++ c)%string) l s
    = (s ++ String.concat "" l)%string.
Proof.
  induction l as [|t l IH]; intros s.
  - simpl. now rewrite append_empty.
  - rewrite concat_cons. cbn [fold_left]. rewrite IH. apply append_assoc.
Qed.

Lemma array_reduce_append (l : list string) :
  l <> [] ->
  array_reduce (fun acc c => (acc ++ c)%string) l = Ok (String.concat "" l).
Proof.
  destruct l as [|s l]; [congruence|intros _].
  unfold array_reduce. now rewrite fold_left_append, concat_cons.
Qed.

Lemma command_letters_app (s t : string) :
  command_letters (s ++ t) = command_letters s ++ command_letters t.
Proof.
  unfold command_letters. induction s as [|a s IH]; simpl; [reflexivity|].
  rewrite IH. now destruct (is_command_letter a).
Qed.

Lemma command_letters_letter (a : ascii) (s : string) :
  is_command_letter a = true ->
  command_letters (String a s) = a :: command_letters s.
Proof. unfold command_letters. simpl. now intros ->. Qed.

Lemma command_letters_other (a : ascii) (s : string) :
  is_command_letter a = false ->
  command_letters (String a s) = command_letters s.
Proof. unfold command_letters. simpl. now intros ->. Qed.

Lemma command_letters_plain (s : string) :
  plain s = true -> command_letters s = [].
Proof.
  unfold plain, command_letters. induction s as [|a s IH]; simpl.
  - reflexivity.
  - intros H. apply andb_true_iff in H as [Ha Hs].
    destruct (is_command_letter a); [discriminate|auto].
Qed.

Lemma concat_app (l l' : list string) :
  String.concat "" (l ++ l')
  = (String.concat "" l ++ String.concat "" l')%string.
Proof.
  induction l as [|s l IH]; [reflexivity|].
  change ((s :: l) ++ l') with (s :: (l ++ l')).
  now rewrite !concat_cons, IH, append_assoc.
Qed.

Lemma map_from_app {A B : Type} (g : A -> nat -> B) (a a' : list A) :
  forall n,
    map_from g n (a ++ a')
    = map_from g n a ++ map_from g (n + List.length a) a'.
Proof.
  induction a as [|v a IH]; intros n; simpl.
  - now rewrite Nat.add_0_r.
  - now rewrite IH, Nat.add_succ_r.
Qed.

Lemma last_nth {A : Type} (l : list A) (d : A) :
  last l d = nth (List.length l - 1) l d.
Proof.
  induction l as [|a [|b l] IH]; try reflexivity.
  change (last (a :: b :: l) d) with (last (b :: l) d). rewrite IH.
  simpl. now rewrite Nat.sub_0_r.
Qed.

Lemma last_nth_error {A : Type} (l : list A) (d : A) :
  l <> [] -> nth_error l (List.length l - 1) = Some (last l d).
Proof.
  intros Hne. rewrite last_nth. apply nth_error_nth'.
  destruct l; [congruence|simpl; lia].
Qed.

Lemma nth_map_nth_error {A B : Type} (f : A -> B) (l : list A) k a (d : B) :
  nth_error l k = Some a -> nth k (map f l) d = f a.
Proof.
  intros H. apply nth_error_nth. now apply map_nth_error.
Qed.

Lemma Forall2_nth_error_Some {A B : Type} (R : A -> B -> Prop) l l' :
  Forall2 R l l' ->
  forall i,
    match nth_error l i, nth_error l' i with
    | Some a, Some b => R a b
    | None, None => True
    | _, _ => False
    end.
Proof.
  induction 1 as [|a b l l' Hab _ IH]; intros [|i]; simpl; auto.
  apply IH.
Qed.

Section Properties.

Context {N : Numbers} {I : Imports N}.

(** ** Serializer *)

(** One guard, and one only, accepts a segment: the three tests of
    [serialize] leave nothing to [exhaustiveCheck]. *)
Lemma guards_exhaustive {F : Type} (segment : Segment F) :
  (isMove segment, isCurve segment, isClose segment)
  = match segment with
    | Move _ => (true, false, false)
    | Curve _ => (false, true, false)
    | Close => (false, false, true)
    end.
Proof. destruct segment; reflexivity. Qed.

Lemma serializeSegment_token {F : Type} (segment : Segment F) :
  serializeSegment segment = token segment.
Proof. destruct segment; reflexivity. Qed.

Lemma serializeSegment_eraseFrom {F : Type} (segment : Segment F) :
  serializeSegment (eraseFrom segment) = serializeSegment segment.
Proof. destruct segment; reflexivity. Qed.

Lemma serialize_eraseFrom {F : Type} (path : list (Segment F)) :
  serialize (map eraseFrom path) = serialize path.
Proof.
  unfold serialize. rewrite map_map. f_equal.
  apply map_ext. intros s. apply serializeSegment_eraseFrom.
Qed.

Lemma command_letters_token {F : Type} (segment : Segment F) :
  forallb (fun n => plain (show n)) (coordinates segment) = true ->
  command_letters (token segment) = [command_letter (type segment)].
Proof.
  destruct segment as [v|c|]; simpl; intros H; [| |reflexivity];
    repeat (apply andb_true_iff in H as [?%command_letters_plain H]);
    repeat first
      [ rewrite command_letters_letter by reflexivity
      | rewrite command_letters_other by reflexivity
      | rewrite command_letters_app ];
    repeat match goal with
           | E : command_letters _ = [] |- _ => rewrite E; clear E
           end;
    reflexivity.
Qed.

Lemma command_letters_concat {F : Type} (path : list (Segment F)) :
  plain_numbers path = true ->
  command_letters (String.concat "" (map token path))
  = map command_letter (shape path).
Proof.
  unfold plain_numbers. induction path as [|s path IH]; intros H.
  - reflexivity.
  - cbn [map shape]. rewrite concat_cons, command_letters_app.
    cbn [flat_map] in H. rewrite forallb_app in H.
    apply andb_true_iff in H as [Hs Hp].
    rewrite (command_letters_token s Hs). simpl. f_equal. now apply IH.
Qed.

Lemma serialize_concat {F : Type} (path : list (Segment F)) :
  path <> [] -> serialize path = Ok (String.concat "" (map token path)).
Proof.
  intros Hne. unfold serialize.
  rewrite (map_ext _ _ (@serializeSegment_token F)).
  apply array_reduce_append. now destruct path.
Qed.

(** C5.  On a path that is not empty [serialize] returns the concatenation,
    in order, of one token per segment: [M{x},{y} ] for a Move,
    [C{c1.x},{c1.y} {c2.x},{c2.y} {to.x},{to.y} ] for a Curve, without its
    [from], and [Z] for a Close.  When the numbers are printed without
    letters of the path grammar, the command letters of the output are
    exactly one [M], [C] or [Z] per segment, in the order of the path. *)
Theorem serialize_tokens {F : Type} (path : list (Segment F)) :
  path <> [] ->
  serialize path = Ok (String.concat "" (map token path))
  /\ List.length (map token path) = List.length path
  /\ (plain_numbers path = true ->
      command_letters (String.concat "" (map token path))
      = map command_letter (shape path)).
Proof.
  intros Hne. split; [|split].
  - now apply serialize_concat.
  - apply length_map.
  - apply command_letters_concat.
Qed.

(** C6.  [serialize] of the empty path throws: the [reduce] with no initial
    value has nothing to start from.  It does not return the empty string. *)
Theorem serialize_empty {F : Type} :
  serialize (@nil (Segment F)) = Throw TypeError_reduce_empty
  /\ serialize (@nil (Segment F)) <> Ok "".
Proof. split; [reflexivity|discriminate]. Qed.

(** ** The adapter of [parse] *)

Lemma parseSegment_curve segments i prev x1 y1 x2 y2 cx cy :
  nth_error segments i = Some prev ->
  parseSegment segments (SVGCurveCommand x1 y1 x2 y2 cx cy) (S i)
  = Ok (Curve {| from := penAfter prev;
                 to := {| x := cx; y := cy |};
                 c1 := {| x := x1; y := y1 |};
                 c2 := {| x := x2; y := y2 |} |}).
Proof.
  intros Hprev. unfold parseSegment. cbn [array_get_pred]. rewrite Hprev.
  destruct prev; reflexivity.
Qed.

Lemma parseSegment_adapted segments segment index prev :
  array_get_pred segments index = Some prev ->
  parseSegment segments segment index = Ok (adapted segments segment index).
Proof.
  intros Hprev. destruct segment; try reflexivity.
  unfold parseSegment, adapted. rewrite Hprev. destruct prev; reflexivity.
Qed.

(** C2, as the code has it.  When the first command is not a curve, [parse]
    adapts every command, and a curve at index [i + 1] starts where the
    command at index [i] ends: at the point of a Move, at the end point of a
    curve, and at (0, 0) after a Close, for which no error is raised. *)
Theorem parseSegments_from (segments : list SVGNormalizedCommand) :
  (forall first, hd_error segments = Some first -> letter first <> "C") ->
  exists path,
    parseSegments segments = Ok path
    /\ List.length path = List.length segments
    /\ forall i prev x1 y1 x2 y2 cx cy,
         nth_error segments i = Some prev ->
         nth_error segments (S i) = Some (SVGCurveCommand x1 y1 x2 y2 cx cy) ->
         nth_error path (S i)
         = Some (Curve {| from := penAfter prev;
                          to := {| x := cx; y := cy |};
                          c1 := {| x := x1; y := y1 |};
                          c2 := {| x := x2; y := y2 |} |}).
Proof.
  intros Hfirst.
  exists (map_from (adapted segments) 0 segments). split; [|split].
  - unfold parseSegments, array_map. apply array_map_from_pure.
    intros [|i] v Hv; cbn [Nat.add].
    + destruct v; try reflexivity.
      destruct segments as [|s ?]; [discriminate|].
      injection Hv as ->. now destruct (Hfirst _ eq_refl).
    + destruct (nth_error segments i) as [prev|] eqn:Hprev.
      * now apply parseSegment_adapted with (prev := prev).
      * apply nth_error_None in Hprev.
        assert (S i < List.length segments)
          by (apply nth_error_Some; congruence). lia.
  - apply map_from_length.
  - intros i prev x1 y1 x2 y2 cx cy Hprev Hcur.
    rewrite map_from_nth_error, Hcur. cbn [option_map Nat.add adapted array_get_pred].
    now rewrite Hprev.
Qed.

(** ** Interpolation *)

Lemma shape_nth_error (p q : Path) i s :
  shape p = shape q ->
  nth_error q i = Some s ->
  exists s', nth_error p i = Some s' /\ type s' = type s.
Proof.
  unfold shape. intros H Hs.
  pose proof (map_nth_error type i q Hs) as Hq.
  rewrite <- H, nth_error_map in Hq.
  destruct (nth_error p i) as [s'|]; [|discriminate].
  exists s'. split; [reflexivity|]. now injection Hq.
Qed.

Lemma shape_length (p q : Path) :
  shape p = shape q -> List.length p = List.length q.
Proof.
  unfold shape. intros H. apply (f_equal (@List.length _)) in H.
  now rewrite !length_map in H.
Qed.

Lemma gather_points outputRange first index v :
  symmetrical outputRange -> In first outputRange ->
  nth_error first index = Some (Move v) ->
  array_map (pointAt index) outputRange
  = Ok (map (pointOf index) outputRange).
Proof.
  intros Hsym Hin Hv. unfold array_map.
  rewrite <- (map_from_const (pointOf index) outputRange 0).
  apply array_map_from_pure. intros i p Hp.
  destruct (shape_nth_error p first index
              (Hsym p first (nth_error_In _ _ Hp) Hin) Hv)
    as (s & Hs & Ht).
  unfold pointAt, pointOf. rewrite Hs.
  destruct s; try discriminate. reflexivity.
Qed.

Lemma gather_curves outputRange first index c :
  symmetrical outputRange -> In first outputRange ->
  nth_error first index = Some (Curve c) ->
  array_map (curveAt index) outputRange
  = Ok (map (controlOf index) outputRange).
Proof.
  intros Hsym Hin Hc. unfold array_map.
  rewrite <- (map_from_const (controlOf index) outputRange 0).
  apply array_map_from_pure. intros i p Hp.
  destruct (shape_nth_error p first index
              (Hsym p first (nth_error_In _ _ Hp) Hin) Hc)
    as (s & Hs & Ht).
  unfold curveAt, controlOf. rewrite Hs.
  destruct s; try discriminate. reflexivity.
Qed.

Lemma interpolateSegment_blend value inputRange outputRange extrapolate
    first segment index :
  symmetrical outputRange -> In first outputRange ->
  nth_error first index = Some segment ->
  interpolateSegment value inputRange outputRange extrapolate segment index
  = Ok (blend value inputRange outputRange extrapolate segment index).
Proof.
  intros Hsym Hin Hs. destruct segment as [v|c|]; cbn [interpolateSegment].
  - rewrite (@gather_points _ _ _ _ Hsym Hin Hs). cbn [bind blend].
    now rewrite !map_map.
  - rewrite (@gather_curves _ _ _ _ Hsym Hin Hs). cbn [bind blend].
    now rewrite !map_map.
  - reflexivity.
Qed.

Lemma interpolatedPath_blend value inputRange outputRange extrapolate first :
  symmetrical outputRange ->
  hd_error outputRange = Some first ->
  interpolatedPath value inputRange outputRange extrapolate
  = Ok (map_from (blend value inputRange outputRange extrapolate) 0 first).
Proof.
  intros Hsym Hfirst. unfold interpolatedPath.
  rewrite nth_error_0, Hfirst. unfold array_map.
  apply array_map_from_pure. intros i segment Hs.
  apply interpolateSegment_blend with (first := first); auto.
  destruct outputRange; [discriminate|]. injection Hfirst as ->. now left.
Qed.

(** A Close of the first path is returned as it is, whatever the other
    paths hold at its index. *)
Lemma interpolateSegment_close value inputRange outputRange extrapolate index :
  interpolateSegment value inputRange outputRange extrapolate Close index
  = Ok Close.
Proof. reflexivity. Qed.

Lemma type_blend value inputRange outputRange extrapolate segment index :
  type (blend value inputRange outputRange extrapolate segment index)
  = type segment.
Proof. destruct segment; reflexivity. Qed.

Lemma shape_map_from_blend value inputRange outputRange extrapolate first :
  forall n,
    shape (map_from (blend value inputRange outputRange extrapolate) n first)
    = shape first.
Proof.
  unfold shape. induction first as [|s first IH]; intros n; simpl.
  - reflexivity.
  - now rewrite type_blend, IH.
Qed.

(** C8.  On structurally identical paths the interpolation goes through.
    The path it builds has the kinds of the first input path, a Close where
    the inputs have a Close, whatever the value and whatever [interpolate]
    returns; when the inputs end in a Close the text ends in [Z]. *)
Theorem interpolatePath_close value inputRange outputRange extrapolate first :
  symmetrical outputRange ->
  hd_error outputRange = Some first ->
  exists path,
    interpolatedPath value inputRange outputRange (nullish extrapolate CLAMP)
    = Ok path
    /\ shape path = shape first
    /\ (forall i, nth_error first i = Some Close ->
                  nth_error path i = Some Close)
    /\ (forall init, first = init ++ [Close] ->
          exists s,
            interpolatePath value inputRange outputRange extrapolate
            = Ok (s ++ "Z")%string).
Proof.
  intros Hsym Hfirst.
  pose proof (interpolatedPath_blend value inputRange
                (nullish extrapolate CLAMP) Hsym Hfirst) as Hpath.
  eexists. split; [exact Hpath|]. split; [|split].
  - apply shape_map_from_blend.
  - intros i Hi. now rewrite map_from_nth_error, Hi.
  - intros init ->. unfold interpolatePath. rewrite Hpath. cbn [bind].
    rewrite map_from_app. cbn [map_from blend].
    rewrite serialize_concat by now destruct (map_from _ 0 init).
    rewrite map_app, concat_app. eexists. reflexivity.
Qed.

(** When [interpolate] returns the [k]-th of the outputs it is given, the
    interpolated path is the [k]-th input path. *)
Lemma blend_pick value inputRange outputRange extrapolate first k pk
    segment sk index :
  symmetrical outputRange -> In first outputRange ->
  nth_error outputRange k = Some pk ->
  (forall outputs, List.length outputs = List.length outputRange ->
     interpolate value inputRange outputs extrapolate = nth k outputs zero) ->
  nth_error first index = Some segment ->
  nth_error pk index = Some sk ->
  blend value inputRange outputRange extrapolate segment index = eraseFrom sk.
Proof.
  intros Hsym Hin Hk Hpick Hs Hsk.
  assert (Ht : type sk = type segment).
  { destruct (shape_nth_error pk first index
                (Hsym pk first (nth_error_In _ _ Hk) Hin) Hs) as (s & Hs' & Ht).
    congruence. }
  unfold blend.
  destruct segment as [v|c|], sk as [vk|ck|]; try discriminate; cbn [eraseFrom].
  - rewrite !Hpick by apply length_map.
    rewrite !(nth_map_nth_error _ _ _ _ Hk).
    unfold pointOf. rewrite Hsk. now destruct vk.
  - rewrite !Hpick by apply length_map.
    rewrite !(nth_map_nth_error _ _ _ _ Hk).
    unfold controlOf. rewrite Hsk. cbn.
    now destruct ck as [f [] [] []].
  - reflexivity.
Qed.

Lemma interpolatePath_pick value inputRange outputRange extrapolate first k pk :
  symmetrical outputRange ->
  hd_error outputRange = Some first ->
  nth_error outputRange k = Some pk ->
  (forall outputs, List.length outputs = List.length outputRange ->
     interpolate value inputRange outputs (nullish extrapolate CLAMP)
     = nth k outputs zero) ->
  interpolatePath value inputRange outputRange extrapolate = serialize pk.
Proof.
  intros Hsym Hfirst Hk Hpick. unfold interpolatePath.
  rewrite (interpolatedPath_blend value inputRange _ Hsym Hfirst). cbn [bind].
  rewrite <- (serialize_eraseFrom pk). f_equal.
  assert (Hin : In first outputRange).
  { destruct outputRange; [discriminate|]. injection Hfirst as ->. now left. }
  pose proof (shape_length pk first
                (Hsym pk first (nth_error_In _ _ Hk) Hin)) as Hlen.
  apply nth_error_ext. intros i.
  rewrite map_from_nth_error, nth_error_map. cbn [Nat.add].
  destruct (nth_error first i) as [segment|] eqn:Hs.
  - destruct (shape_nth_error pk first i
                (Hsym pk first (nth_error_In _ _ Hk) Hin) Hs) as (sk & Hsk & _).
    rewrite Hsk. cbn [option_map]. f_equal.
    now apply blend_pick with (first := first) (k := k) (pk := pk).
  - apply nth_error_None in Hs.
    assert (Hn : nth_error pk i = None) by (apply nth_error_None; lia).
    now rewrite Hn.
Qed.

(** C7.  Let the paths be structurally identical, as many as the
    breakpoints, and let [interpolate] keep the contract of the clamp policy
    on [inputRange].  Then at the first breakpoint, and at every value below
    it, [interpolatePath] returns the text of the first path; at the last
    breakpoint, and at every value above it, the text of the last path. *)
Theorem interpolatePath_clamp inputRange outputRange first final :
  symmetrical outputRange ->
  List.length inputRange = List.length outputRange ->
  hd_error outputRange = Some first ->
  last outputRange first = final ->
  clamps inputRange ->
  interpolatePath (hd zero inputRange) inputRange outputRange (Some CLAMP)
  = serialize first
  /\ interpolatePath (last inputRange zero) inputRange outputRange (Some CLAMP)
     = serialize final
  /\ (forall value, gt (hd zero inputRange) value = true ->
        interpolatePath value inputRange outputRange (Some CLAMP)
        = serialize first)
  /\ (forall value, gt value (last inputRange zero) = true ->
        interpolatePath value inputRange outputRange (Some CLAMP)
        = serialize final).
Proof.
  intros Hsym Hlen Hfirst Hfinal Hclamp.
  assert (H0 : nth_error outputRange 0 = Some first)
    by now rewrite nth_error_0.
  assert (Hk : nth_error outputRange (List.length outputRange - 1) = Some final).
  { rewrite <- Hfinal. apply last_nth_error. now destruct outputRange. }
  assert (Hhd : forall outputs : list number,
             hd zero outputs = nth 0 outputs zero) by now intros [|? ?].
  assert (Hc : forall outputs : list number,
             List.length outputs = List.length outputRange ->
             interpolate (hd zero inputRange) inputRange outputs CLAMP
             = nth 0 outputs zero
             /\ interpolate (last inputRange zero) inputRange outputs CLAMP
                = nth (List.length outputRange - 1) outputs zero
             /\ (forall value, gt (hd zero inputRange) value = true ->
                   interpolate value inputRange outputs CLAMP
                   = nth 0 outputs zero)
             /\ (forall value, gt value (last inputRange zero) = true ->
                   interpolate value inputRange outputs CLAMP
                   = nth (List.length outputRange - 1) outputs zero)).
  { intros outputs Ho. rewrite <- Ho, <- last_nth, <- Hhd.
    apply Hclamp. congruence. }
  repeat split; intros.
  - apply interpolatePath_pick with (first := first) (k := 0); auto.
    intros outputs Ho. exact (proj1 (Hc outputs Ho)).
  - apply interpolatePath_pick
      with (first := first) (k := List.length outputRange - 1); auto.
    intros outputs Ho. exact (proj1 (proj2 (Hc outputs Ho))).
  - apply interpolatePath_pick with (first := first) (k := 0); auto.
    intros outputs Ho. now apply (proj1 (proj2 (proj2 (Hc outputs Ho)))).
  - apply interpolatePath_pick
      with (first := first) (k := List.length outputRange - 1); auto.
    intros outputs Ho. now apply (proj2 (proj2 (proj2 (Hc outputs Ho)))).
Qed.

(** [mixPath] is [interpolatePath] on the breakpoints [0, 1] and the two
    paths. *)
Lemma mixPath_unfold value p1 p2 extrapolate :
  mixPath value p1 p2 extrapolate
  = interpolatePath value [zero; one] [p1; p2] extrapolate.
Proof. destruct extrapolate; reflexivity. Qed.

(** ** Independence of [from] *)

Lemma same_up_to_from_erase s s' :
  same_up_to_from s s' -> eraseFrom s = eraseFrom s'.
Proof. intros [v|c c' Hto H1 H2|]; cbn; congruence. Qed.

Lemma same_up_to_from_serializeSegment s s' :
  same_up_to_from s s' -> serializeSegment s = serializeSegment s'.
Proof.
  intros H. rewrite <- (serializeSegment_eraseFrom s),
    <- (serializeSegment_eraseFrom s'). now rewrite (same_up_to_from_erase H).
Qed.

Lemma pointAt_same index p p' n :
  Forall2 same_up_to_from p p' -> pointAt index p n = pointAt index p' n.
Proof.
  intros H. pose proof (Forall2_nth_error_Some H index) as Hi.
  unfold pointAt.
  destruct (nth_error p index) as [s|], (nth_error p' index) as [s'|];
    try contradiction; [|reflexivity].
  now destruct Hi.
Qed.

Lemma curveAt_same index p p' n :
  Forall2 same_up_to_from p p' -> curveAt index p n = curveAt index p' n.
Proof.
  intros H. pose proof (Forall2_nth_error_Some H index) as Hi.
  unfold curveAt.
  destruct (nth_error p index) as [s|], (nth_error p' index) as [s'|];
    try contradiction; [|reflexivity].
  destruct Hi; try reflexivity. congruence.
Qed.

Lemma interpolateSegment_same value inputRange ps ps' extrapolate s s' index :
  Forall2 (Forall2 same_up_to_from) ps ps' ->
  same_up_to_from s s' ->
  interpolateSegment value inputRange ps extrapolate s index
  = interpolateSegment value inputRange ps' extrapolate s' index.
Proof.
  intros Hps Hs. destruct Hs; cbn [interpolateSegment]; [| |reflexivity].
  - unfold array_map.
    rewrite (array_map_from_ext (pointAt index) (pointAt index) Hps);
      [reflexivity|].
    intros; now apply pointAt_same.
  - unfold array_map.
    rewrite (array_map_from_ext (curveAt index) (curveAt index) Hps);
      [reflexivity|].
    intros; now apply curveAt_same.
Qed.

(** C10.  Paths that differ only in the [from] fields of their curves have
    the same text, and families of such paths are interpolated to the same
    text, for every value, every [inputRange] and every extrapolation. *)
Theorem from_is_not_observed :
  (forall p p',
     Forall2 same_up_to_from p p' -> serialize p = serialize p')
  /\ (forall value inputRange ps ps' extrapolate,
        Forall2 (Forall2 same_up_to_from) ps ps' ->
        interpolatePath value inputRange ps extrapolate
        = interpolatePath value inputRange ps' extrapolate).
Proof.
  split.
  - intros p p' H. unfold serialize. f_equal.
    induction H as [|s s' p p' Hs _ IH]; [reflexivity|].
    cbn [map]. now rewrite IH, (same_up_to_from_serializeSegment Hs).
  - intros value inputRange ps ps' extrapolate H.
    unfold interpolatePath, interpolatedPath.
    destruct H as [|p p' ps ps' Hp Hps]; [reflexivity|].
    cbn [nth_error]. unfold array_map.
    rewrite (array_map_from_ext
               (interpolateSegment value inputRange (p :: ps)
                  (nullish extrapolate CLAMP))
               (interpolateSegment value inputRange (p' :: ps')
                  (nullish extrapolate CLAMP)) Hp); [reflexivity|].
    intros s s' i Hs. apply interpolateSegment_same; [|assumption].
    now constructor.
Qed.

(** ** y for x *)

(** On numbers where [>] is the negation of [<=] and [>=] is [<=] turned
    around, the filter of [getYForX] keeps the curves whose closed x interval
    contains the query, and nothing else. *)
Lemma brackets_interval x0 (segment : Segment Vector) :
  (forall a b, gt a b = negb (le a b)) ->
  (forall a b, ge a b = le b a) ->
  brackets x0 segment
  = match segment with
    | Curve c => in_x_interval x0 c
    | _ => false
    end.
Proof.
  intros Hgt Hge. destruct segment as [v|c|]; try reflexivity.
  unfold brackets, in_x_interval, min_number, max_number.
  rewrite Hgt, !Hge. now destruct (le (x (from c)) (x (to c))).
Qed.

(** The curve [getYForX] solves on is the first one the filter keeps. *)
Lemma getYForX_first path x0 c :
  hd_error (filter (brackets x0) path) = Some (Curve c) ->
  getYForX path x0 = Ok (cubicBezierYForX x0 (from c) (c1 c) (c2 c) (to c)).
Proof. intros H. unfold getYForX. now rewrite nth_error_0, H. Qed.

(** When the filter keeps nothing, the type guard reads [undefined.type]. *)
Lemma getYForX_none path x0 :
  filter (brackets x0) path = [] -> getYForX path x0 = Throw TypeError_undefined.
Proof. intros H. unfold getYForX. now rewrite H. Qed.

(** The result is never the fallback [0] of the last line of [getYForX]:
    the filter keeps curves only. *)
Lemma getYForX_cases path x0 :
  getYForX path x0 = Throw TypeError_undefined
  \/ exists c, In (Curve c) path /\ brackets x0 (Curve c) = true
       /\ getYForX path x0
          = Ok (cubicBezierYForX x0 (from c) (c1 c) (c2 c) (to c)).
Proof.
  unfold getYForX.
  destruct (filter (brackets x0) path) as [|s p] eqn:Hp; [now left|].
  assert (Hs : In s (filter (brackets x0) path)) by (rewrite Hp; now left).
  apply filter_In in Hs as [Hin Hb].
  destruct s as [v|c|]; try discriminate.
  right. exists c. auto.
Qed.

End Properties.

(** * Further properties *)

Lemma array_map_from_Ok_inv {A B : Type} (f : A -> nat -> result B)
    (a : list A) :
  forall n bs,
    array_map_from f n a = Ok bs ->
    List.length bs = List.length a
    /\ forall i v, nth_error a i = Some v ->
         exists b, f v (n + i) = Ok b /\ nth_error bs i = Some b.
Proof.
  induction a as [|v a IH]; intros n bs; simpl.
  - intros [= <-]. split; [reflexivity|]. intros [|i] w; discriminate.
  - destruct (f v n) as [b|e] eqn:Hb; [|discriminate]. cbn [bind].
    destruct (array_map_from f (S n) a) as [bs'|e] eqn:Hbs; [|discriminate].
    cbn [bind]. intros [= <-].
    destruct (IH (S n) bs' Hbs) as [Hlen Hnth].
    split; [simpl; now rewrite Hlen|].
    intros [|i] w Hw.
    + injection Hw as <-. exists b. now rewrite Nat.add_0_r.
    + destruct (Hnth i w Hw) as (b' & Hb' & Hi).
      exists b'. now rewrite Nat.add_succ_r.
Qed.

Lemma array_map_from_Throw_inv {A B : Type} (f : A -> nat -> result B)
    (a : list A) :
  forall n e,
    array_map_from f n a = Throw e ->
    exists i v, nth_error a i = Some v /\ f v (n + i) = Throw e.
Proof.
  induction a as [|v a IH]; intros n e; simpl; [discriminate|].
  destruct (f v n) as [b|e'] eqn:Hb; cbn [bind].
  - destruct (array_map_from f (S n) a) as [bs|e''] eqn:Hbs; [discriminate|].
    cbn [bind]. intros [= <-].
    destruct (IH (S n) e'' Hbs) as (i & w & Hw & Hf).
    exists (S i), w. split; [exact Hw|]. now rewrite Nat.add_succ_r.
  - intros [= <-]. exists 0, v. split; [reflexivity|].
    now rewrite Nat.add_0_r.
Qed.

Lemma find_filter {A : Type} (f : A -> bool) (l : list A) :
  hd_error (filter f l) = find f l.
Proof.
  induction l as [|a l IH]; simpl; [reflexivity|].
  now destruct (f a).
Qed.

Section MoreProperties.

Context {N : Numbers} {I : Imports N}.

(** ** Serializer *)

(** The text of a path, when there is one, opens with the command letter of
    the first segment: [serialize] returns no empty text, for any path. *)
Theorem serialize_opens_with_letter {F : Type} (path : list (Segment F))
    (text : string) :
  serialize path = Ok text ->
  exists first rest tail,
    path = first :: rest
    /\ text = String (command_letter (type first)) tail.
Proof.
  destruct path as [|first rest]; [discriminate|].
  rewrite serialize_concat by discriminate. cbn [map]. rewrite concat_cons.
  intros [= <-]. exists first, rest.
  destruct first as [v|c|]; eexists; split; reflexivity.
Qed.

(** The text of two paths put end to end is the text of the first followed
    by the text of the second. *)
Theorem serialize_app {F : Type} (p q : list (Segment F)) :
  p <> [] -> q <> [] ->
  exists a b,
    serialize p = Ok a /\ serialize q = Ok b
    /\ serialize (p ++ q) = Ok (a ++ b)%string.
Proof.
  intros Hp Hq.
  exists (String.concat "" (map token p)), (String.concat "" (map token q)).
  rewrite !serialize_concat; auto.
  - now rewrite map_app, concat_app.
  - destruct p; [congruence|discriminate].
Qed.

Lemma command_letter_injective (a b : SVGCommand) :
  command_letter a = command_letter b -> a = b.
Proof. destruct a, b; simpl; intros H; try reflexivity; discriminate. Qed.

Lemma map_command_letter_injective (k l : list SVGCommand) :
  map command_letter k = map command_letter l -> k = l.
Proof.
  revert l. induction k as [|a k IH]; intros [|b l]; simpl; try discriminate.
  - reflexivity.
  - intros [= Hab Hkl]. f_equal; [now apply command_letter_injective|auto].
Qed.

Lemma serialize_letters {F : Type} (path : list (Segment F)) text :
  serialize path = Ok text ->
  plain_numbers path = true ->
  command_letters text = map command_letter (shape path).
Proof.
  destruct path as [|s path]; [discriminate|].
  rewrite serialize_concat by discriminate. intros [= <-] Hp.
  exact (command_letters_concat (s :: path) Hp).
Qed.

Lemma serialize_Throw {F : Type} (path : list (Segment F)) e :
  serialize path = Throw e -> path = [].
Proof.
  destruct path as [|s path]; [reflexivity|].
  now rewrite serialize_concat by discriminate.
Qed.

(** When the numbers are printed without letters of the path grammar, two
    paths with the same text have the same kinds of segments, in the same
    order. *)
Theorem serialize_same_text_same_shape {F G : Type}
    (p : list (Segment F)) (q : list (Segment G)) :
  plain_numbers p = true -> plain_numbers q = true ->
  serialize p = serialize q ->
  shape p = shape q.
Proof.
  intros Hp Hq E.
  destruct (serialize p) as [text|e] eqn:Ep; symmetry in E.
  - apply map_command_letter_injective.
    now rewrite <- (serialize_letters p Ep Hp), <- (serialize_letters q E Hq).
  - apply serialize_Throw in Ep, E. now subst.
Qed.

(** ** The adapter of [parse] *)

Lemma parseSegment_Ok segments segment index b :
  parseSegment segments segment index = Ok b ->
  b = adapted segments segment index.
Proof.
  destruct segment; cbn [parseSegment adapted].
  - now intros [= <-].
  - destruct (array_get_pred segments index) as [prev|]; [|discriminate].
    intros [= <-]. destruct prev; reflexivity.
  - now intros [= <-].
Qed.

Lemma parseSegments_Ok segments path :
  parseSegments segments = Ok path ->
  path = map_from (adapted segments) 0 segments.
Proof.
  intros H. destruct (array_map_from_Ok_inv _ _ _ H) as [Hlen Hnth].
  apply nth_error_ext. intros i. rewrite map_from_nth_error.
  destruct (nth_error segments i) as [v|] eqn:Hv; cbn [option_map].
  - destruct (Hnth i v Hv) as (b & Hb & Hi). rewrite Hi. f_equal.
    now apply parseSegment_Ok.
  - apply nth_error_None. rewrite Hlen. now apply nth_error_None.
Qed.

Lemma type_adapted segments segment index :
  type (adapted segments segment index) = kindOf segment.
Proof. destruct segment; reflexivity. Qed.

Lemma token_adapted segments segment index :
  token (adapted segments segment index) = commandText segment.
Proof. destruct segment; reflexivity. Qed.

Lemma map_from_map {A B C : Type} (g : A -> nat -> B) (h : B -> C)
    (k : A -> C) (a : list A) :
  (forall v i, h (g v i) = k v) ->
  forall n, map h (map_from g n a) = map k a.
Proof.
  intros H. induction a as [|v a IH]; intros n; simpl; [reflexivity|].
  now rewrite H, IH.
Qed.

Lemma parseSegments_adapted segments :
  (forall first, hd_error segments = Some first -> letter first <> "C") ->
  parseSegments segments = Ok (map_from (adapted segments) 0 segments).
Proof.
  intros Hfirst. unfold parseSegments, array_map. apply array_map_from_pure.
  intros [|i] v Hv; cbn [Nat.add].
  - destruct v; try reflexivity.
    destruct segments as [|s ?]; [discriminate|].
    injection Hv as ->. now destruct (Hfirst _ eq_refl).
  - destruct (nth_error segments i) as [prev|] eqn:Hprev.
    + now apply parseSegment_adapted with (prev := prev).
    + apply nth_error_None in Hprev.
      assert (S i < List.length segments)
        by (apply nth_error_Some; congruence). lia.
Qed.

(** The adapter fails in one case only: the first command is a curve, and
    the failure is the TypeError of reading the command before it.  In every
    other case it returns one segment per command, of the kind of the
    command. *)
Theorem parseSegments_first_curve (segments : list SVGNormalizedCommand) :
  match hd_error segments with
  | Some (SVGCurveCommand _ _ _ _ _ _) =>
      parseSegments segments = Throw TypeError_undefined
  | _ =>
      exists path,
        parseSegments segments = Ok path
        /\ shape path = map kindOf segments
  end.
Proof.
  assert (Hok : (forall first, hd_error segments = Some first ->
                   letter first <> "C") ->
                exists path,
                  parseSegments segments = Ok path
                  /\ shape path = map kindOf segments).
  { intros Hfirst. exists (map_from (adapted segments) 0 segments). split.
    - now apply parseSegments_adapted.
    - unfold shape. apply map_from_map. intros; apply type_adapted. }
  destruct segments as [|[mx my|x1 y1 x2 y2 cx cy|] rest]; cbn [hd_error];
    try (apply Hok; intros first [= <-]; discriminate).
  reflexivity.
Qed.

(** In a parsed path every curve starts where the segment before it leaves
    the pen: at the point of a Move, at the end of a curve, and at (0, 0)
    after a Close. *)
Theorem parseSegments_connected segments path i s c :
  parseSegments segments = Ok path ->
  nth_error path i = Some s ->
  nth_error path (S i) = Some (Curve c) ->
  from c = penOf s.
Proof.
  intros Hpath Hs Hc. apply parseSegments_Ok in Hpath. subst path.
  rewrite map_from_nth_error in Hs, Hc. cbn [Nat.add] in Hs, Hc.
  destruct (nth_error segments i) as [prev|] eqn:Hprev; [|discriminate].
  destruct (nth_error segments (S i)) as [cur|] eqn:Hcur; [|discriminate].
  cbn [option_map] in Hs, Hc. injection Hs as <-. injection Hc as Hc.
  destruct cur; try discriminate.
  cbn [adapted array_get_pred] in Hc. rewrite Hprev in Hc.
  injection Hc as <-. cbn [from]. destruct prev; reflexivity.
Qed.

(** The text of a parsed path is the text of the normalized commands: the
    serializer gives back the commands that [parse] adapted. *)
Theorem serialize_parseSegments segments path :
  parseSegments segments = Ok path ->
  segments <> [] ->
  serialize path = Ok (String.concat "" (map commandText segments)).
Proof.
  intros Hpath Hne. apply parseSegments_Ok in Hpath. subst path.
  rewrite serialize_concat by now destruct segments.
  f_equal. f_equal. apply map_from_map. intros; apply token_adapted.
Qed.

Lemma array_get_pred_app {A : Type} (a b : list A) (i : nat) :
  i < List.length a -> array_get_pred (a ++ b) i = array_get_pred a i.
Proof.
  destruct i as [|i]; [reflexivity|]. intros Hi. cbn [array_get_pred].
  apply nth_error_app1. lia.
Qed.

(** The adapter looks one command back and no further: the path of a prefix
    of the commands is the prefix of the path. *)
Theorem parseSegments_prefix (a b : list SVGNormalizedCommand) path :
  parseSegments (a ++ b) = Ok path ->
  parseSegments a = Ok (firstn (List.length a) path).
Proof.
  intros H. pose proof (array_map_from_Ok_inv _ _ _ H) as [_ Hnth].
  apply parseSegments_Ok in H. subst path.
  rewrite map_from_app, firstn_app, map_from_length, Nat.sub_diag.
  rewrite firstn_all2 by (rewrite map_from_length; lia).
  cbn [firstn]. rewrite app_nil_r.
  unfold parseSegments, array_map. apply array_map_from_pure.
  intros i v Hv. cbn [Nat.add].
  assert (Hi : i < List.length a) by (apply nth_error_Some; congruence).
  destruct (Hnth i v) as (s & Hs & _); [now rewrite nth_error_app1|].
  cbn [Nat.add] in Hs. apply parseSegment_Ok in Hs as Hs'.
  destruct v; try reflexivity.
  cbn [parseSegment adapted] in Hs |- *.
  rewrite array_get_pred_app in Hs |- * by assumption.
  destruct (array_get_pred a i) as [prev|]; [|discriminate].
  destruct prev; reflexivity.
Qed.

(** ** Interpolation *)

Lemma symmetrical_two (p q : Path) : shape p = shape q -> symmetrical [p; q].
Proof. intros H a b [<-|[<-|[]]] [<-|[<-|[]]]; auto. Qed.

Lemma pointAt_Ok index p n v :
  pointAt index p n = Ok v ->
  exists s, nth_error p index = Some s /\ type s = MOVE.
Proof.
  unfold pointAt. destruct (nth_error p index) as [[s|c|]|]; try discriminate.
  intros _. eexists. split; reflexivity.
Qed.

Lemma curveAt_Ok index p n c :
  curveAt index p n = Ok c ->
  exists s, nth_error p index = Some s /\ type s = CURVE.
Proof.
  unfold curveAt. destruct (nth_error p index) as [[s|b|]|]; try discriminate.
  intros _. eexists. split; reflexivity.
Qed.

Lemma array_map_Ok_In {A B : Type} (f : A -> nat -> result B) a bs v :
  array_map f a = Ok bs -> In v a -> exists n b, f v n = Ok b.
Proof.
  intros H Hin. destruct (In_nth_error _ _ Hin) as [j Hj].
  destruct (array_map_from_Ok_inv _ _ _ H) as [_ Hnth].
  destruct (Hnth j v Hj) as (b & Hb & _). eauto.
Qed.

Lemma interpolateSegment_Ok value inputRange outputRange extrapolate
    segment index b :
  interpolateSegment value inputRange outputRange extrapolate segment index
  = Ok b ->
  type b = type segment
  /\ (type segment <> CLOSE ->
      forall p, In p outputRange ->
        exists s, nth_error p index = Some s /\ type s = type segment).
Proof.
  destruct segment as [v|c|]; cbn [interpolateSegment].
  - destruct (array_map (pointAt index) outputRange) as [points|e] eqn:Hg;
      [|discriminate].
    cbn [bind]. intros [= <-]. split; [reflexivity|]. intros _ p Hp.
    destruct (array_map_Ok_In _ _ p Hg Hp) as (n & w & Hw).
    now apply pointAt_Ok in Hw.
  - destruct (array_map (curveAt index) outputRange) as [curves|e] eqn:Hg;
      [|discriminate].
    cbn [bind]. intros [= <-]. split; [reflexivity|]. intros _ p Hp.
    destruct (array_map_Ok_In _ _ p Hg Hp) as (n & w & Hw).
    now apply curveAt_Ok in Hw.
  - intros [= <-]. split; [reflexivity|]. now intros [].
Qed.

Lemma interpolateSegment_aligned value inputRange outputRange extrapolate
    segment index :
  (type segment <> CLOSE ->
   forall p, In p outputRange ->
     exists s, nth_error p index = Some s /\ type s = type segment) ->
  interpolateSegment value inputRange outputRange extrapolate segment index
  = Ok (blend value inputRange outputRange extrapolate segment index).
Proof.
  intros H. destruct segment as [v|c|]; cbn [interpolateSegment].
  - assert (Hg : array_map (pointAt index) outputRange
                 = Ok (map (pointOf index) outputRange)).
    { unfold array_map.
      rewrite <- (map_from_const (pointOf index) outputRange 0).
      apply array_map_from_pure. intros i p Hp.
      destruct (H ltac:(discriminate) p (nth_error_In _ _ Hp)) as (s & Hs & Ht).
      unfold pointAt, pointOf. rewrite Hs.
      destruct s; try discriminate. reflexivity. }
    rewrite Hg. cbn [bind blend]. now rewrite !map_map.
  - assert (Hg : array_map (curveAt index) outputRange
                 = Ok (map (controlOf index) outputRange)).
    { unfold array_map.
      rewrite <- (map_from_const (controlOf index) outputRange 0).
      apply array_map_from_pure. intros i p Hp.
      destruct (H ltac:(discriminate) p (nth_error_In _ _ Hp)) as (s & Hs & Ht).
      unfold curveAt, controlOf. rewrite Hs.
      destruct s; try discriminate. reflexivity. }
    rewrite Hg. cbn [bind blend]. now rewrite !map_map.
  - reflexivity.
Qed.

(** [interpolatePath] returns a text in one case only: there is a first
    path, it is not empty, and under each of its Moves and Curves every path
    has a segment of the same kind.  Nothing is asked of the other paths
    under a Close of the first path, nor past its end. *)
Theorem interpolatePath_succeeds_iff value inputRange outputRange extrapolate :
  (exists text,
     interpolatePath value inputRange outputRange extrapolate = Ok text)
  <-> (exists first,
         hd_error outputRange = Some first
         /\ first <> []
         /\ aligned outputRange first).
Proof.
  unfold interpolatePath, interpolatedPath. rewrite nth_error_0. split.
  - intros [text H].
    destruct (hd_error outputRange) as [first|]; [|discriminate].
    exists first. split; [reflexivity|].
    destruct (array_map _ first) as [path|e] eqn:Hpath; [|discriminate].
    cbn [bind] in H.
    destruct (array_map_from_Ok_inv _ _ _ Hpath) as [Hlen Hnth].
    split.
    + intros ->. destruct path; [discriminate|discriminate].
    + intros index segment Hs Hkind p Hp.
      destruct (Hnth index segment Hs) as (b & Hb & _).
      now apply (interpolateSegment_Ok _ _ _ _ _ _ Hb).
  - intros (first & -> & Hne & Hal).
    assert (Hpath : array_map
                      (interpolateSegment value inputRange outputRange
                         (nullish extrapolate CLAMP)) first
                    = Ok (map_from (blend value inputRange outputRange
                                      (nullish extrapolate CLAMP)) 0 first)).
    { unfold array_map. apply array_map_from_pure. intros i segment Hs.
      apply interpolateSegment_aligned. intros Hkind p Hp.
      now apply (Hal i segment). }
    rewrite Hpath. cbn [bind]. eexists. apply serialize_concat.
    destruct first; [congruence|discriminate].
Qed.

(** Whenever [interpolatePath] returns, its text is the text of a path with
    one segment for each segment of the first path, of the same kind. *)
Theorem interpolatePath_shape value inputRange outputRange extrapolate text :
  interpolatePath value inputRange outputRange extrapolate = Ok text ->
  exists (first : Path) (path : list (Segment unit)),
    hd_error outputRange = Some first
    /\ shape path = shape first
    /\ serialize path = Ok text.
Proof.
  unfold interpolatePath, interpolatedPath. rewrite nth_error_0.
  destruct (hd_error outputRange) as [first|]; [|discriminate].
  destruct (array_map _ first) as [path|e] eqn:Hpath; [|discriminate].
  cbn [bind]. intros H. exists first, path.
  split; [reflexivity|]. split; [|exact H].
  destruct (array_map_from_Ok_inv _ _ _ Hpath) as [Hlen Hnth].
  unfold shape. apply nth_error_ext. intros i. rewrite !nth_error_map.
  destruct (nth_error first i) as [segment|] eqn:Hs.
  - destruct (Hnth i segment Hs) as (b & Hb & ->). cbn [option_map].
    f_equal. now apply (interpolateSegment_Ok _ _ _ _ _ _ Hb).
  - assert (Hn : nth_error path i = None).
    { apply nth_error_None. rewrite Hlen. now apply nth_error_None. }
    now rewrite Hn.
Qed.

(** With [extrapolate] left out, and an [interpolate] that keeps the clamp
    contract on [0, 1], [mixPath] of two paths of the same shape gives the
    text of the first path at 0 and the text of the second at 1. *)
Theorem mixPath_endpoints (p1 p2 : Path) :
  shape p1 = shape p2 ->
  clamps [zero; one] ->
  mixPath zero p1 p2 None = serialize p1
  /\ mixPath one p1 p2 None = serialize p2.
Proof.
  intros Hshape Hclamps. unfold mixPath. split.
  - apply interpolatePath_pick with (first := p1) (k := 0);
      [now apply symmetrical_two|reflexivity|reflexivity|].
    intros [|a [|b [|? ?]]]; try discriminate. intros _.
    exact (proj1 (Hclamps [a; b] eq_refl)).
  - apply interpolatePath_pick with (first := p1) (k := 1);
      [now apply symmetrical_two|reflexivity|reflexivity|].
    intros [|a [|b [|? ?]]]; try discriminate. intros _.
    exact (proj1 (proj2 (Hclamps [a; b] eq_refl))).
Qed.

(** On aligned paths the text is that of the blended segments: under a Move
    or a Curve of the first path, each coordinate is [interpolate] applied
    to the list of that coordinate over the paths, in the order of
    [outputRange]; a Close stays a Close. *)
Theorem interpolatePath_blends value inputRange outputRange extrapolate first :
  hd_error outputRange = Some first ->
  aligned outputRange first ->
  interpolatePath value inputRange outputRange extrapolate
  = serialize (map_from (blend value inputRange outputRange
                           (nullish extrapolate CLAMP)) 0 first).
Proof.
  intros Hfirst Hal. unfold interpolatePath, interpolatedPath.
  rewrite nth_error_0, Hfirst. unfold array_map.
  rewrite (array_map_from_pure _
             (blend value inputRange outputRange (nullish extrapolate CLAMP))).
  - reflexivity.
  - intros i segment Hs. apply interpolateSegment_aligned.
    intros Hkind p Hp. now apply (Hal i segment).
Qed.

(** At a value where [interpolate] returns the [k]-th of its outputs, as at
    the [k]-th breakpoint, [interpolatePath] on structurally identical paths
    returns the text of the [k]-th path. *)
Theorem interpolatePath_at_breakpoint value inputRange outputRange extrapolate
    k pk :
  symmetrical outputRange ->
  nth_error outputRange k = Some pk ->
  (forall outputs, List.length outputs = List.length outputRange ->
     interpolate value inputRange outputs (nullish extrapolate CLAMP)
     = nth k outputs zero) ->
  interpolatePath value inputRange outputRange extrapolate = serialize pk.
Proof.
  intros Hsym Hk Hpick.
  destruct outputRange as [|first rest]; [now destruct k|].
  now apply interpolatePath_pick with (first := first) (k := k).
Qed.

Lemma pointAt_Throw index p n e :
  pointAt index p n = Throw e ->
  index < List.length p -> e = asymmetrical.
Proof.
  unfold pointAt. intros H Hlt.
  destruct (nth_error p index) as [[s|c|]|] eqn:Hp; try discriminate;
    try (now injection H as <-).
  apply nth_error_None in Hp. lia.
Qed.

Lemma curveAt_Throw index p n e :
  curveAt index p n = Throw e ->
  index < List.length p -> e = asymmetrical.
Proof.
  unfold curveAt. intros H Hlt.
  destruct (nth_error p index) as [[s|c|]|] eqn:Hp; try discriminate;
    try (now injection H as <-).
  apply nth_error_None in Hp. lia.
Qed.

(** When no path is shorter than the first one, which is not empty, the
    only exception of [interpolatePath] is the Error "Paths to interpolate
    are not symetrical". *)
Theorem interpolatePath_throws_asymmetrical value inputRange
    (outputRange : list Path) extrapolate (first : Path) e :
  hd_error outputRange = Some first ->
  first <> [] ->
  (forall p, In p outputRange -> List.length first <= List.length p) ->
  interpolatePath value inputRange outputRange extrapolate = Throw e ->
  e = asymmetrical.
Proof.
  intros Hfirst Hne Hlen. unfold interpolatePath, interpolatedPath.
  rewrite nth_error_0, Hfirst.
  destruct (array_map _ first) as [path|e'] eqn:Hpath; cbn [bind].
  - intros H. apply serialize_Throw in H. subst path.
    destruct (array_map_from_Ok_inv _ _ _ Hpath) as [Hl _].
    destruct first; [congruence|discriminate].
  - intros [= <-].
    destruct (array_map_from_Throw_inv _ _ _ Hpath) as (i & segment & Hs & He).
    cbn [Nat.add] in He.
    assert (Hi : i < List.length first) by (apply nth_error_Some; congruence).
    destruct segment as [v|c|]; cbn [interpolateSegment] in He.
    + destruct (array_map (pointAt i) outputRange) as [points|e''] eqn:Hg;
        [discriminate|].
      cbn [bind] in He. injection He as <-.
      destruct (array_map_from_Throw_inv _ _ _ Hg) as (j & p & Hp & Hthrow).
      apply pointAt_Throw in Hthrow; [assumption|].
      specialize (Hlen p (nth_error_In _ _ Hp)). lia.
    + destruct (array_map (curveAt i) outputRange) as [curves|e''] eqn:Hg;
        [discriminate|].
      cbn [bind] in He. injection He as <-.
      destruct (array_map_from_Throw_inv _ _ _ Hg) as (j & p & Hp & Hthrow).
      apply curveAt_Throw in Hthrow; [assumption|].
      specialize (Hlen p (nth_error_In _ _ Hp)). lia.
    + discriminate.
Qed.

(** ** y for x *)

Lemma brackets_bounds x0 (segment : Segment Vector) :
  (forall a b, gt a b = negb (le a b)) ->
  (forall a b, ge a b = le b a) ->
  brackets x0 segment = selects x0 segment.
Proof.
  intros Hgt Hge. destruct segment as [v|c|]; try reflexivity.
  unfold brackets, selects, in_x_interval, min_number, max_number.
  rewrite Hgt, !Hge. now destruct (le (x (from c)) (x (to c))).
Qed.

Lemma getYForX_find path x0 :
  getYForX path x0 = solveOn x0 (find (brackets x0) path).
Proof.
  unfold getYForX. rewrite nth_error_0, find_filter.
  destruct (find (brackets x0) path) as [s|] eqn:Hf; [|reflexivity].
  apply find_some in Hf as [_ Hb]. destruct s; try discriminate. reflexivity.
Qed.

(** On numbers where [>] is the negation of [<=] and [>=] is [<=] turned
    around, [getYForX] answers on the first curve of the path, in path
    order, whose closed x interval [min(from.x, to.x), max(from.x, to.x)]
    contains the query, and throws when there is none. *)
Theorem getYForX_interval path x0 :
  (forall a b, gt a b = negb (le a b)) ->
  (forall a b, ge a b = le b a) ->
  getYForX path x0 = solveOn x0 (find (selects x0) path).
Proof.
  intros Hgt Hge. rewrite getYForX_find. f_equal.
  induction path as [|s path IH]; [reflexivity|]. cbn [find].
  now rewrite IH, (brackets_bounds x0 s Hgt Hge).
Qed.

(** The first match wins: segments put after a path that has an answer do
    not change it, and segments put before, none of which brackets the
    query, do not either. *)
Theorem getYForX_app (p q : Path) x0 :
  (forall v, getYForX p x0 = Ok v -> getYForX (p ++ q) x0 = Ok v)
  /\ ((forall s, In s p -> brackets x0 s = false) ->
      getYForX (p ++ q) x0 = getYForX q x0).
Proof.
  rewrite !getYForX_find. split.
  - intros v. induction p as [|s p IH]; [discriminate|].
    cbn [app find]. destruct (brackets x0 s); [auto|exact IH].
  - intros Hnone. f_equal. induction p as [|s p IH]; [reflexivity|].
    cbn [app find]. rewrite (Hnone s (or_introl eq_refl)).
    apply IH. intros t Ht. apply Hnone. now right.
Qed.

(** Moves and Closes play no part: the answer is the answer on the curves
    of the path alone. *)
Theorem getYForX_curves_only path x0 :
  getYForX (filter isCurve path) x0 = getYForX path x0.
Proof.
  rewrite !getYForX_find. f_equal.
  induction path as [|s path IH]; [reflexivity|].
  destruct s as [v|c|]; cbn [filter isCurve type find brackets]; try exact IH.
  now rewrite IH.
Qed.

End MoreProperties.

(** * The functions on concrete paths, in the rational model *)

#[local] Existing Instance Rational.numbers.
#[local] Existing Instance Rational.imports.

Lemma Rational_le_of_gt (a b : Qc) : gt a b = true -> le b a = true.
Proof.
  cbn. unfold Qccompare. rewrite <- (Qcompare_antisym (this a) (this b)).
  now destruct (this a ?= this b)%Q.
Qed.

Lemma Rational_gt_trans (a b c : Qc) :
  gt a b = true -> gt b c = true -> gt a c = true.
Proof.
  cbn. intros Hab Hbc.
  assert (Hlt : (c < a)%Qc).
  { apply Qclt_trans with b; apply Qcgt_alt.
    - now destruct (b ?= c)%Qc.
    - now destruct (a ?= b)%Qc. }
  apply Qcgt_alt in Hlt. now rewrite Hlt.
Qed.

Lemma Rational_le_refl (a : Qc) : le a a = true.
Proof. cbn. now rewrite (proj1 (Qceq_alt a a) eq_refl). Qed.

Lemma Rational_ge_refl (a : Qc) : ge a a = true.
Proof. cbn. now rewrite (proj1 (Qceq_alt a a) eq_refl). Qed.

Lemma Rational_le_gt (a b : Qc) : le a b = negb (gt a b).
Proof. cbn. now destruct (a ?= b)%Qc. Qed.

Lemma Rational_ge_of_gt (a b : Qc) : gt a b = true -> ge a b = true.
Proof. cbn. now destruct (a ?= b)%Qc. Qed.

Lemma last_default {A : Type} (l : list A) (d d' : A) :
  l <> [] -> last l d = last l d'.
Proof.
  induction l as [|a [|b l] IH]; intros Hne; try congruence; try reflexivity.
  change (last (b :: l) d = last (b :: l) d'). apply IH. discriminate.
Qed.

(** The model of [interpolate] keeps the contract of the clamp policy on
    every [inputRange] whose last breakpoint is above the first. *)
Lemma Rational_clamps (inputRange : list number) :
  gt (last inputRange zero) (hd zero inputRange) = true ->
  clamps inputRange.
Proof.
  destruct inputRange as [|l rest]; [discriminate|].
  intros Hasc outputs _.
  change (@interpolate Rational.numbers Rational.imports)
    with Rational.interpolate.
  change (@CLAMP Rational.numbers Rational.imports) with Rational.Clamp.
  unfold Rational.interpolate.
  change (@number Rational.numbers) with Qc in *.
  change (@zero Rational.numbers) with (Q2Qc 0) in *.
  rewrite (last_default (l := l :: rest) l (Q2Qc 0)) by discriminate.
  cbn [hd] in *. set (r := last (l :: rest) (Q2Qc 0)) in *.
  repeat split.
  - now rewrite Rational_le_refl.
  - rewrite Rational_le_gt, Hasc. cbn [negb].
    now rewrite Rational_ge_refl.
  - intros value Hgt. now rewrite (Rational_le_of_gt l value Hgt).
  - intros value Hgt.
    rewrite Rational_le_gt, (Rational_gt_trans value r l Hgt Hasc). cbn [negb].
    now rewrite (Rational_ge_of_gt value r Hgt).
Qed.

(** ** Serializer *)

Lemma serialize_tokens_witness :
  plain_numbers
    [move (num 150) (num 0);
     curve {| from := pt 150 0; to := pt 200 75;
              c1 := pt 150 0; c2 := pt 0 75 |};
     close] = true
  /\ serialize
       [move (num 150) (num 0);
        curve {| from := pt 150 0; to := pt 200 75;
                 c1 := pt 150 0; c2 := pt 0 75 |};
        close]
     = Ok "M150,0 C150,0 0,75 200,75 Z".
Proof.
  split; [reflexivity|].
  refine (eq_trans (proj1 (serialize_tokens
    (path := [move (num 150) (num 0);
              curve {| from := pt 150 0; to := pt 200 75;
                       c1 := pt 150 0; c2 := pt 0 75 |};
              close]) _)) _).
  - discriminate.
  - reflexivity.
Defined.

(** ** The adapter of [parse] *)

(** C2 as it is stated fails twice.  A curve that follows a Close is given
    the start (0, 0) and nothing is thrown; and a curve that comes first is
    not given (0, 0): reading the command before it is a TypeError. *)
Lemma parseSegments_after_close :
  parseSegments
    [SVGMoveCommand (num 1) (num 2); SVGCloseCommand;
     SVGCurveCommand (num 1) (num 1) (num 2) (num 2) (num 3) (num 3)]
  = Ok [move (num 1) (num 2); close;
        curve {| from := pt 0 0; to := pt 3 3; c1 := pt 1 1; c2 := pt 2 2 |}]
  /\ parseSegments
       [SVGCurveCommand (num 1) (num 1) (num 2) (num 2) (num 3) (num 3)]
     = Throw TypeError_undefined.
Proof. split; reflexivity. Qed.

Lemma parseSegments_from_witness :
  exists path,
    parseSegments
      [SVGMoveCommand (num 1) (num 2);
       SVGCurveCommand (num 1) (num 1) (num 2) (num 2) (num 3) (num 3);
       SVGCurveCommand (num 4) (num 4) (num 5) (num 5) (num 6) (num 6);
       SVGCloseCommand;
       SVGCurveCommand (num 7) (num 7) (num 8) (num 8) (num 9) (num 9)]
    = Ok path
    /\ nth_error path 1
       = Some (Curve {| from := pt 1 2; to := pt 3 3;
                        c1 := pt 1 1; c2 := pt 2 2 |})
    /\ nth_error path 2
       = Some (Curve {| from := pt 3 3; to := pt 6 6;
                        c1 := pt 4 4; c2 := pt 5 5 |})
    /\ nth_error path 4
       = Some (Curve {| from := pt 0 0; to := pt 9 9;
                        c1 := pt 7 7; c2 := pt 8 8 |}).
Proof.
  destruct (parseSegments_from
    [SVGMoveCommand (num 1) (num 2);
     SVGCurveCommand (num 1) (num 1) (num 2) (num 2) (num 3) (num 3);
     SVGCurveCommand (num 4) (num 4) (num 5) (num 5) (num 6) (num 6);
     SVGCloseCommand;
     SVGCurveCommand (num 7) (num 7) (num 8) (num 8) (num 9) (num 9)])
    as (path & Hpath & _ & Hfrom).
  - intros first [= <-]. discriminate.
  - exists path. split; [exact Hpath|].
    split; [exact (Hfrom 0 _ _ _ _ _ _ _ eq_refl eq_refl)|].
    split; [exact (Hfrom 1 _ _ _ _ _ _ _ eq_refl eq_refl)|].
    exact (Hfrom 3 _ _ _ _ _ _ _ eq_refl eq_refl).
Defined.

(** ** Interpolation *)

(** C1 on the code.  A Close in the first path is passed on without a look
    at the other paths, and the segments of a longer path are never read:
    these calls return a text.  A path shorter than the first one, under a
    Move, makes the type guard read [undefined.type].  Only a segment of
    another kind under a Move or a Curve of the first path is reported as
    asymmetrical. *)
Theorem interpolatePath_asymmetrical :
  interpolatePath half [num 0; num 1]
    [[close]; [move (num 1) (num 2)]] None = Ok "Z"
  /\ interpolatePath half [num 0; num 1]
       [[move (num 0) (num 0)]; [move (num 10) (num 10); close]] None
     = Ok "M5,5 "
  /\ interpolatePath half [num 0; num 1]
       [[move (num 0) (num 0); close]; [move (num 10) (num 10)]] None
     = Ok "M5,5 Z"
  /\ interpolatePath half [num 0; num 1]
       [[move (num 0) (num 0); move (num 1) (num 1)];
        [move (num 10) (num 10)]] None
     = Throw TypeError_undefined
  /\ interpolatePath half [num 0; num 1]
       [[move (num 0) (num 0)]; [close]] None
     = Throw asymmetrical.
Proof. repeat split; reflexivity. Qed.

Lemma symmetrical_pair (p q : Path) :
  shape p = shape q -> symmetrical [p; q].
Proof.
  intros H a b [<-|[<-|[]]] [<-|[<-|[]]]; auto.
Qed.

Lemma interpolatePath_close_witness :
  exists s,
    interpolatePath half [num 0; num 1]
      [[move (num 0) (num 0); close]; [move (num 10) (num 10); close]] None
    = Ok (s ++ "Z")%string.
Proof.
  destruct (@interpolatePath_close _ _ half [num 0; num 1]
              [[move (num 0) (num 0); close]; [move (num 10) (num 10); close]]
              None [move (num 0) (num 0); close])
    as (path & _ & _ & _ & Hz).
  - apply symmetrical_pair. reflexivity.
  - reflexivity.
  - exact (Hz [move (num 0) (num 0)] eq_refl).
Defined.

Lemma interpolatePath_clamp_witness :
  interpolatePath (num 0) [num 0; num 1]
    [[move (num 0) (num 0); close]; [move (num 10) (num 10); close]]
    (Some CLAMP)
  = Ok "M0,0 Z"
  /\ interpolatePath (num 1) [num 0; num 1]
       [[move (num 0) (num 0); close]; [move (num 10) (num 10); close]]
       (Some CLAMP)
     = Ok "M10,10 Z"
  /\ interpolatePath (num (-3)) [num 0; num 1]
       [[move (num 0) (num 0); close]; [move (num 10) (num 10); close]]
       (Some CLAMP)
     = Ok "M0,0 Z"
  /\ interpolatePath (num 7) [num 0; num 1]
       [[move (num 0) (num 0); close]; [move (num 10) (num 10); close]]
       (Some CLAMP)
     = Ok "M10,10 Z".
Proof.
  destruct (@interpolatePath_clamp _ _ [num 0; num 1]
              [[move (num 0) (num 0); close]; [move (num 10) (num 10); close]]
              [move (num 0) (num 0); close] [move (num 10) (num 10); close])
    as (Hfirst & Hlast & Hbelow & Habove).
  - apply symmetrical_pair. reflexivity.
  - reflexivity.
  - reflexivity.
  - reflexivity.
  - apply Rational_clamps. reflexivity.
  - split; [exact Hfirst|].
    split; [exact Hlast|].
    split; [exact (Hbelow (num (-3)) eq_refl)|].
    exact (Habove (num 7) eq_refl).
Defined.

(** C9.  [mixPath] returns what [interpolatePath] returns on the breakpoints
    [0, 1] and the two paths, with the same extrapolation, in every model of
    the numbers.  In the rational model the mix of a Move at (0, 0) and a
    Move at (10, 10) at 0.5 is [M5,5 ]. *)
Theorem mixPath_is_interpolatePath :
  (forall (N : Numbers) (I : Imports N) (value : number) (pA pB : Path)
          (extrapolate : option Extrapolate),
      mixPath value pA pB extrapolate
      = interpolatePath value [zero; one] [pA; pB] extrapolate)
  /\ mixPath half [move (num 0) (num 0)] [move (num 10) (num 10)] None
     = Ok "M5,5 ".
Proof.
  split.
  - intros N I value pA pB extrapolate. apply mixPath_unfold.
  - reflexivity.
Qed.

Lemma from_is_not_observed_witness :
  serialize
    [move (num 1) (num 2);
     curve {| from := pt 1 2; to := pt 7 8; c1 := pt 3 4; c2 := pt 5 6 |}]
  = serialize
      [move (num 1) (num 2);
       curve {| from := pt 9 9; to := pt 7 8; c1 := pt 3 4; c2 := pt 5 6 |}].
Proof.
  apply (proj1 from_is_not_observed).
  repeat constructor.
Defined.

(** ** y for x *)

(** C3 on the code.  When no curve brackets the query, [getYForX] does not
    return 0: the filter keeps nothing and the type guard on its first
    element throws.  So it is on an empty path, on a path without a curve,
    and on a curve that ends before the query. *)
Theorem getYForX_without_bracket :
  getYForX [] (num 5) = Throw TypeError_undefined
  /\ getYForX [move (num 0) (num 0)] (num 5) = Throw TypeError_undefined
  /\ getYForX
       [move (num 0) (num 0);
        curve {| from := pt 0 0; to := pt 10 10;
                 c1 := pt 3 0; c2 := pt 7 10 |}] (num 20)
     = Throw TypeError_undefined.
Proof. repeat split; reflexivity. Qed.

Lemma hd_error_In {A : Type} (l : list A) (a : A) :
  hd_error l = Some a -> In a l.
Proof. destruct l; [discriminate|]. intros [= ->]. now left. Qed.

(** In the model a curve with [from.x = to.x] brackets one query only, its
    own x. *)
Lemma Rational_brackets_vertical (x0 : Qc) (c : Bezier Vector) :
  brackets x0 (Curve c) = true ->
  x (from c) = x (to c) ->
  x0 = x (from c).
Proof.
  intros Hb E. unfold brackets in Hb. rewrite <- E in Hb.
  set (a := x (from c)) in *. cbn in Hb.
  rewrite (proj1 (Qceq_alt a a) eq_refl) in Hb.
  destruct (x0 ?= a)%Qc eqn:Hx; try discriminate.
  now apply Qceq_alt.
Qed.

(** C4.  In every model the first curve that brackets the query is handed
    to [cubicBezierYForX] as it is, with the query.  With the
    [cubicBezierYForX] of the specification, on a path whose first
    bracketing curve goes from (x0, y0) to (x1, y1), the value at x0 is y0
    and, when x1 differs from x0, the value at x1 is y1, both exactly.  A
    curve with [from.x = to.x] that the selection keeps is queried at its
    own x and is answered by the return at the boundary, with [from.y],
    whatever the solver of the cubic would say. *)
Theorem getYForX_endpoints :
  (forall (N : Numbers) (I : Imports N) (path : Path) (x0 : number)
          (c : Bezier Vector),
      hd_error (filter (brackets x0) path) = Some (Curve c) ->
      getYForX path x0
      = Ok (cubicBezierYForX x0 (from c) (c1 c) (c2 c) (to c)))
  /\ (forall (path : @Path Rational.numbers) (c : Bezier Vector),
        (hd_error (filter (brackets (x (from c))) path) = Some (Curve c) ->
         getYForX path (x (from c)) = Ok (y (from c)))
        /\ (hd_error (filter (brackets (x (to c))) path) = Some (Curve c) ->
            x (to c) <> x (from c) ->
            getYForX path (x (to c)) = Ok (y (to c))))
  /\ (forall (path : @Path Rational.numbers) (x0 : Qc) (c : Bezier Vector),
        hd_error (filter (brackets x0) path) = Some (Curve c) ->
        x (from c) = x (to c) ->
        x0 = x (from c)
        /\ getYForX path x0 = Ok (y (from c))
        /\ forall solver,
             Rational.cubicBezierYForXWith solver
               x0 (from c) (c1 c) (c2 c) (to c)
             = y (from c))
  /\ (forall (x0 : Qc) (a b c d : Vector),
        Rational.cubicBezierYForX x0 a b c d
        = Rational.cubicBezierYForXWith
            (fun xs rising target =>
               Rational.solve 24 xs rising target 0%Qc 1%Qc)
            x0 a b c d).
Proof.
  split; [intros; now apply getYForX_first|].
  split; [|split; [|reflexivity]].
  - intros path c. split.
    + intros H. rewrite (getYForX_first path _ H). cbn.
      unfold Rational.cubicBezierYForX.
      now destruct (Qc_eq_dec (x (from c)) (x (from c))).
    + intros H Hne. rewrite (getYForX_first path _ H). cbn.
      unfold Rational.cubicBezierYForX.
      destruct (Qc_eq_dec (x (to c)) (x (from c))); [contradiction|].
      now destruct (Qc_eq_dec (x (to c)) (x (to c))).
  - intros path x0 c H E.
    assert (Hx : x0 = x (from c)).
    { apply Rational_brackets_vertical; [|exact E].
      apply hd_error_In in H. now apply filter_In in H. }
    split; [exact Hx|]. split.
    + rewrite (getYForX_first path _ H). cbn.
      unfold Rational.cubicBezierYForX.
      now destruct (Qc_eq_dec x0 (x (from c))).
    + intros solver. unfold Rational.cubicBezierYForXWith.
      now destruct (Qc_eq_dec x0 (x (from c))).
Qed.

Lemma getYForX_endpoints_witness :
  getYForX
    [move (num 150) (num 0);
     curve {| from := pt 150 0; to := pt 200 75;
              c1 := pt 150 0; c2 := pt 0 75 |}] (num 200)
  = Ok (num 75)
  /\ getYForX
       [move (num 150) (num 0);
        curve {| from := pt 150 0; to := pt 200 75;
                 c1 := pt 150 0; c2 := pt 0 75 |}] (num 150)
     = Ok (num 0)
  /\ getYForX
       [move (num 5) (num 0);
        curve {| from := pt 5 0; to := pt 5 10;
                 c1 := pt 5 3; c2 := pt 5 7 |}] (num 5)
     = Ok (num 0).
Proof.
  split; [|split].
  - refine (proj2 (proj1 (proj2 getYForX_endpoints)
      [move (num 150) (num 0);
       curve {| from := pt 150 0; to := pt 200 75;
                c1 := pt 150 0; c2 := pt 0 75 |}]
      {| from := pt 150 0; to := pt 200 75; c1 := pt 150 0; c2 := pt 0 75 |})
      eq_refl _).
    intros E. discriminate (f_equal (fun q => Qnum (this q)) E).
  - exact (proj1 (proj1 (proj2 getYForX_endpoints)
      [move (num 150) (num 0);
       curve {| from := pt 150 0; to := pt 200 75;
                c1 := pt 150 0; c2 := pt 0 75 |}]
      {| from := pt 150 0; to := pt 200 75; c1 := pt 150 0; c2 := pt 0 75 |})
      eq_refl).
  - exact (proj1 (proj2 (proj1 (proj2 (proj2 getYForX_endpoints))
      [move (num 5) (num 0);
       curve {| from := pt 5 0; to := pt 5 10; c1 := pt 5 3; c2 := pt 5 7 |}]
      (num 5)
      {| from := pt 5 0; to := pt 5 10; c1 := pt 5 3; c2 := pt 5 7 |}
      eq_refl eq_refl))).
Defined.

(** ** Further properties, on concrete paths *)

Lemma Rational_gt_le (a b : Qc) : gt a b = negb (le a b).
Proof. cbn. now destruct (a ?= b)%Qc. Qed.

Lemma Rational_ge_le (a b : Qc) : ge a b = le b a.
Proof.
  cbn. unfold Qccompare. rewrite <- (Qcompare_antisym (this a) (this b)).
  now destruct (this a ?= this b)%Q.
Qed.

Lemma serialize_opens_with_letter_witness :
  exists (first : Segment Vector) (rest : Path) (tail : string),
    [move (num 1) (num 2); close] = first :: rest
    /\ "M1,2 Z" = String (command_letter (type first)) tail.
Proof.
  apply (serialize_opens_with_letter [move (num 1) (num 2); close]).
  reflexivity.
Defined.

Lemma serialize_app_witness :
  exists a b,
    serialize [move (num 1) (num 2)] = Ok a
    /\ serialize
         [curve {| from := pt 1 2; to := pt 7 8; c1 := pt 3 4; c2 := pt 5 6 |};
          close] = Ok b
    /\ serialize
         ([move (num 1) (num 2)]
          ++ [curve {| from := pt 1 2; to := pt 7 8;
                       c1 := pt 3 4; c2 := pt 5 6 |};
              close])
       = Ok (a ++ b)%string.
Proof. apply serialize_app; discriminate. Defined.

Lemma serialize_same_text_same_shape_witness :
  shape
    [move (num 1) (num 2);
     curve {| from := pt 1 2; to := pt 7 8; c1 := pt 3 4; c2 := pt 5 6 |}]
  = shape
      [move (num 1) (num 2);
       curve {| from := pt 9 9; to := pt 7 8; c1 := pt 3 4; c2 := pt 5 6 |}].
Proof.
  apply serialize_same_text_same_shape; reflexivity.
Defined.

Lemma parseSegments_connected_witness :
  from {| from := pt 3 3; to := pt 6 6; c1 := pt 4 4; c2 := pt 5 5 |}
  = penOf
      (curve {| from := pt 1 2; to := pt 3 3; c1 := pt 1 1; c2 := pt 2 2 |}).
Proof.
  apply (parseSegments_connected
           [SVGMoveCommand (num 1) (num 2);
            SVGCurveCommand (num 1) (num 1) (num 2) (num 2) (num 3) (num 3);
            SVGCurveCommand (num 4) (num 4) (num 5) (num 5) (num 6) (num 6)]
           (path :=
              [move (num 1) (num 2);
               curve {| from := pt 1 2; to := pt 3 3;
                        c1 := pt 1 1; c2 := pt 2 2 |};
               curve {| from := pt 3 3; to := pt 6 6;
                        c1 := pt 4 4; c2 := pt 5 5 |}])
           1); reflexivity.
Defined.

Lemma serialize_parseSegments_witness :
  serialize
    [move (num 1) (num 2);
     curve {| from := pt 1 2; to := pt 3 3; c1 := pt 1 1; c2 := pt 2 2 |};
     close]
  = Ok "M1,2 C1,1 2,2 3,3 Z".
Proof.
  apply (serialize_parseSegments
           (segments :=
              [SVGMoveCommand (num 1) (num 2);
               SVGCurveCommand (num 1) (num 1) (num 2) (num 2) (num 3) (num 3);
               SVGCloseCommand]));
    [reflexivity|discriminate].
Defined.

Lemma parseSegments_prefix_witness :
  parseSegments
    [SVGMoveCommand (num 1) (num 2);
     SVGCurveCommand (num 1) (num 1) (num 2) (num 2) (num 3) (num 3)]
  = Ok [move (num 1) (num 2);
        curve {| from := pt 1 2; to := pt 3 3; c1 := pt 1 1; c2 := pt 2 2 |}].
Proof.
  apply (parseSegments_prefix
           [SVGMoveCommand (num 1) (num 2);
            SVGCurveCommand (num 1) (num 1) (num 2) (num 2) (num 3) (num 3)]
           [SVGCloseCommand;
            SVGCurveCommand (num 7) (num 7) (num 8) (num 8) (num 9) (num 9)]
           (path :=
              [move (num 1) (num 2);
               curve {| from := pt 1 2; to := pt 3 3;
                        c1 := pt 1 1; c2 := pt 2 2 |};
               close;
               curve {| from := pt 0 0; to := pt 9 9;
                        c1 := pt 7 7; c2 := pt 8 8 |}])).
  reflexivity.
Defined.

Lemma interpolatePath_shape_witness :
  exists (first : Path) (path : list (Segment unit)),
    hd_error [[move (num 0) (num 0); close]; [move (num 10) (num 10)]]
    = Some first
    /\ shape path = shape first
    /\ serialize path = Ok "M5,5 Z".
Proof.
  apply (interpolatePath_shape half [num 0; num 1]
           [[move (num 0) (num 0); close]; [move (num 10) (num 10)]] None).
  reflexivity.
Defined.

Lemma interpolatePath_blends_witness :
  interpolatePath half [num 0; num 1]
    [[move (num 0) (num 0); close]; [move (num 10) (num 10)]] None
  = Ok "M5,5 Z".
Proof.
  refine (eq_trans
    (interpolatePath_blends half [num 0; num 1]
       (outputRange :=
          [[move (num 0) (num 0); close]; [move (num 10) (num 10)]])
       None (first := [move (num 0) (num 0); close]) eq_refl _) eq_refl).
  intros [|[|[|i]]] segment Hs Hkind p Hp; try discriminate.
  - injection Hs as <-.
    destruct Hp as [<-|[<-|[]]]; eexists; split; reflexivity.
  - injection Hs as <-. now destruct Hkind.
Defined.

Lemma Rational_interpolate_middle (outputs : list Qc) :
  List.length outputs = 3 ->
  Rational.interpolate (num 1) [num 0; num 1; num 2] outputs Rational.Clamp
  = nth 1 outputs 0%Qc.
Proof.
  destruct outputs as [|a [|b [|c [|? ?]]]]; try discriminate. intros _.
  change (Rational.interpolate (num 1) [num 0; num 1; num 2] [a; b; c]
            Rational.Clamp)
    with (Rational.lerp 1%Qc 0%Qc 1%Qc a b).
  unfold Rational.lerp. cbn [nth]. field. discriminate.
Qed.

Lemma interpolatePath_at_breakpoint_witness :
  interpolatePath (num 1) [num 0; num 1; num 2]
    [[move (num 0) (num 0)]; [move (num 10) (num 10)]; [move (num 30) (num 0)]]
    None
  = Ok "M10,10 ".
Proof.
  refine (eq_trans
    (interpolatePath_at_breakpoint (num 1) [num 0; num 1; num 2]
       (outputRange :=
          [[move (num 0) (num 0)]; [move (num 10) (num 10)];
           [move (num 30) (num 0)]])
       None 1 (pk := [move (num 10) (num 10)]) _ eq_refl _) eq_refl).
  - intros p q [<-|[<-|[<-|[]]]] [<-|[<-|[<-|[]]]]; reflexivity.
  - exact Rational_interpolate_middle.
Defined.

Lemma interpolatePath_throws_asymmetrical_witness :
  interpolatePath half [num 0; num 1]
    [[move (num 0) (num 0)]; [close]] None
  = Throw asymmetrical
  /\ asymmetrical = asymmetrical.
Proof.
  split; [reflexivity|].
  apply (interpolatePath_throws_asymmetrical half [num 0; num 1]
           [[move (num 0) (num 0)]; [close]] None
           (first := [move (num 0) (num 0)])).
  - reflexivity.
  - discriminate.
  - intros p [<-|[<-|[]]]; apply Nat.le_refl.
  - reflexivity.
Defined.

Lemma mixPath_endpoints_witness :
  mixPath (num 0) [move (num 0) (num 0); close] [move (num 10) (num 10); close]
    None
  = Ok "M0,0 Z"
  /\ mixPath (num 1) [move (num 0) (num 0); close]
       [move (num 10) (num 10); close] None
     = Ok "M10,10 Z".
Proof.
  destruct (mixPath_endpoints
              [move (num 0) (num 0); close] [move (num 10) (num 10); close])
    as [H0 H1].
  - reflexivity.
  - apply Rational_clamps. reflexivity.
  - split; [exact H0|exact H1].
Defined.

Lemma getYForX_interval_witness :
  getYForX
    [move (num 150) (num 0);
     curve {| from := pt 200 75; to := pt 150 0;
              c1 := pt 0 75; c2 := pt 150 0 |};
     curve {| from := pt 200 75; to := pt 200 225;
              c1 := pt 75 200; c2 := pt 200 225 |}] (num 200)
  = solveOn (num 200)
      (Some (curve {| from := pt 200 75; to := pt 150 0;
                      c1 := pt 0 75; c2 := pt 150 0 |})).
Proof.
  refine (eq_trans
    (getYForX_interval
       [move (num 150) (num 0);
        curve {| from := pt 200 75; to := pt 150 0;
                 c1 := pt 0 75; c2 := pt 150 0 |};
        curve {| from := pt 200 75; to := pt 200 225;
                 c1 := pt 75 200; c2 := pt 200 225 |}] (num 200)
       Rational_gt_le Rational_ge_le) eq_refl).
Defined.

Lemma getYForX_app_witness :
  getYForX
    ([move (num 0) (num 0);
      curve {| from := pt 0 0; to := pt 10 10; c1 := pt 3 0; c2 := pt 7 10 |}]
     ++ [curve {| from := pt 10 10; to := pt 20 0;
                  c1 := pt 13 10; c2 := pt 17 0 |}]) (num 20)
  = getYForX
      [curve {| from := pt 10 10; to := pt 20 0;
                c1 := pt 13 10; c2 := pt 17 0 |}] (num 20).
Proof.
  apply (proj2 (getYForX_app
    [move (num 0) (num 0);
     curve {| from := pt 0 0; to := pt 10 10; c1 := pt 3 0; c2 := pt 7 10 |}]
    [curve {| from := pt 10 10; to := pt 20 0;
              c1 := pt 13 10; c2 := pt 17 0 |}] (num 20))).
  intros s [<-|[<-|[]]]; reflexivity.
Defined.
